(** * world.js: the World of a small Verlet particle system

    A shallow embedding of [src/source/world.js] and the properties its
    specification states about it.

    Conventions of the model.
    - The methods are written once, over an arithmetic ([Arith]) that
      supplies the numbers, the operations [+ - * /], the square root and
      the comparisons of the source.  [Binary64] is the arithmetic of the
      program: a JavaScript number is an IEEE 754 double, each operation
      rounds.  [Exact] is the arithmetic of the real numbers, which the
      specification's data model speaks of.  A property that needs no
      arithmetic law is proved for every arithmetic, so for the program; a
      property that holds only without rounding says so.
    - Objects live in a store indexed by their identity ([loc]); [!==] on
      objects is inequality of identities.  World and Point objects have the
      fields the source reads and writes; a plain object literal (the
      [options] of [addPoint]) is a finite map from field names to values.
    - A method of the source is a computation in the monad [M]: it threads
      the store, may raise (a [TypeError] is [None]) and records the calls
      it makes, so that "is invoked" has a meaning.
    - Point and Constraint are collaborators whose code is elsewhere: their
      methods and constructors are parameters of [step], [addPoint] and
      [addConstraint], and their [draw] methods of [draw]. *)

From Stdlib Require Import Reals Lra List FunctionalExtensionality.
From Stdlib Require Import ZArith.
From Stdlib Require Floats.
From stdpp Require Import base functions strings gmap.
Import ListNotations.

(** ** Arithmetic *)

(** The numbers of the source and what it does with them: literals,
    [a + b], [a - b], [a * b], [a / b], [-a], [Math.sqrt], [a < b] and
    [a <= b].  The source's [a > b] is [b < a] and its [a >= b] is
    [b <= a], for the reals and for the doubles alike. *)
Class Arith : Type := mkArith {
  number : Type;
  lit : Z -> number;
  num_add : number -> number -> number;
  num_sub : number -> number -> number;
  num_mul : number -> number -> number;
  num_div : number -> number -> number;
  num_neg : number -> number;
  num_sqrt : number -> number;
  num_lt : number -> number -> bool;
  num_le : number -> number -> bool
}.

Declare Scope num_scope.
Delimit Scope num_scope with num.
Notation "a + b" := (num_add a b) : num_scope.
Notation "a - b" := (num_sub a b) : num_scope.
Notation "a * b" := (num_mul a b) : num_scope.
Notation "a / b" := (num_div a b) : num_scope.
Notation "- a" := (num_neg a) : num_scope.
Notation "a <? b" := (num_lt a b) (at level 70) : num_scope.
Notation "a >? b" := (num_lt b a) (at level 70) : num_scope.
Notation "a <=? b" := (num_le a b) (at level 70) : num_scope.
Notation "a >=? b" := (num_le b a) (at level 70) : num_scope.

(** [Math.max] and [Math.min], for the statements that speak of the longer
    and of the shorter side. *)
Definition num_max {A : Arith} (a b : number) : number :=
  if (a <? b)%num then b else a.
Definition num_min {A : Arith} (a b : number) : number :=
  if (b <? a)%num then b else a.

(** An integer literal as a double; exact for the literals used here,
    which are below 2^53 in absolute value, or 2^53 itself. *)
Definition float_of_Z (z : Z) : PrimFloat.float :=
  match z with
  | Z0 => PrimFloat.zero
  | Zpos p => PrimFloat.of_uint63 (Uint63.of_Z (Zpos p))
  | Zneg p => PrimFloat.opp (PrimFloat.of_uint63 (Uint63.of_Z (Zpos p)))
  end.

(** The arithmetic of the program: IEEE 754 binary64, round to nearest. *)
Definition Binary64 : Arith :=
  mkArith PrimFloat.float float_of_Z PrimFloat.add PrimFloat.sub PrimFloat.mul
          PrimFloat.div PrimFloat.opp PrimFloat.sqrt
          PrimFloat.ltb PrimFloat.leb.

Definition Rltb (a b : R) : bool := if Rlt_dec a b then true else false.
Definition Rleb (a b : R) : bool := if Rle_dec a b then true else false.

(** The arithmetic of the real numbers: no operation rounds. *)
Definition Exact : Arith :=
  mkArith R IZR Rplus Rminus Rmult Rdiv Ropp sqrt Rltb Rleb.

(** ** The vector library *)

Module vec2.

Section Vectors.

Context {A : Arith}.

(** Modelled from the spec: [vec2] is the vector library [world.js] calls;
    it is not part of the source.  A vector is a two-element array, [c0]
    is [v[0]] and [c1] is [v[1]]; [createFrom x y] builds it. *)
Record t : Type := createFrom { c0 : number; c1 : number }.

(** Modelled from the spec: [vec2.create()], the fresh vector passed as
    destination; its content is overwritten by the operation. *)
Definition create : t := createFrom (lit 0) (lit 0).

(** Modelled from the spec: "p1.current += adjustment". *)
Definition add (a b : t) : t :=
  createFrom (c0 a + c0 b)%num (c1 a + c1 b)%num.

(** Modelled from the spec: "between = p1.current - p2.current". *)
Definition subtract (a b : t) : t :=
  createFrom (c0 a - c0 b)%num (c1 a - c1 b)%num.

(** Modelled from the spec: "elementwise multiply". *)
Definition multiply (a b : t) : t :=
  createFrom (c0 a * c0 b)%num (c1 a * c1 b)%num.

(** Modelled from the spec: "direction * (-distance/2)". *)
Definition scale (a : t) (k : number) : t :=
  createFrom (c0 a * k)%num (c1 a * k)%num.

(** Modelled from the spec: "|between|", the Euclidean norm. *)
Definition length (a : t) : number :=
  num_sqrt (c0 a * c0 a + c1 a * c1 a)%num.

(** Modelled from the spec: "unit direction = normalize(between)".  The
    specification leaves the zero vector open; nothing below depends on
    the value there. *)
Definition normalize (a : t) : t :=
  createFrom (c0 a / length a)%num (c1 a / length a)%num.

End Vectors.

Arguments t A : clear implicits.

End vec2.

(** ** Objects and the store *)

(** Identity of an object. *)
Definition loc : Type := nat.

Section Objects.

Context {A : Arith}.

(** The fields of a Point that the World reads and writes. *)
Record Point : Type := mkPoint {
  current : vec2.t A;
  radius : number;
  interactive : bool
}.

(** The fields of a World; [points_] and [constraints_] hold the identities
    of the objects pushed, in insertion order. *)
Record World : Type := mkWorld {
  width : number;
  height : number;
  gravity : vec2.t A;
  points_ : list loc;
  constraints_ : list loc;
  scale_ : vec2.t A;
  maxScale_ : number
}.

(** [World.prototype]: every field is [null], which is [0] where a number
    is expected. *)
Definition World_prototype : World :=
  mkWorld (lit 0) (lit 0) vec2.create [] [] vec2.create (lit 0).

(** A value held by a field of an object literal. *)
Inductive Value : Type :=
  | VUndefined
  | VBoolean (b : bool)
  | VNumber (x : number)
  | VVector (v : vec2.t A)
  | VObject (l : loc).

(** The host's [window]. *)
Record Window : Type := mkWindow {
  innerWidth : number;
  innerHeight : number
}.

Record Store : Type := mkStore {
  window : Window;
  worlds : loc -> World;
  points : loc -> Point;
  literals : loc -> gmap string Value;
  fresh : loc
}.

(** A call made by a method. *)
Inductive Call : Type :=
  | CsetSize (w : loc)
  | Csatisfy (c : loc) (dt : number)
  | Cmove (p : loc) (dt : number)
  | CcollidePoints_ (p1 p2 : loc).

(** ** The monad of methods *)

Definition M (X : Type) : Type := Store -> option (X * Store * list Call).

Definition ret {X} (a : X) : M X := fun s => Some (a, s, []).

Definition bind {X Y} (m : M X) (k : X -> M Y) : M Y :=
  fun s =>
    match m s with
    | None => None
    | Some (a, s1, t1) =>
        match k a s1 with
        | None => None
        | Some (b, s2, t2) => Some (b, s2, t1 ++ t2)
        end
    end.

(** Reading the store, writing it, raising, recording a call. *)
Definition gets {X} (f : Store -> X) : M X := fun s => Some (f s, s, []).
Definition modify (f : Store -> Store) : M unit := fun s => Some (tt, f s, []).
Definition throw {X} : M X := fun _ => None.
Definition called (c : Call) : M unit := fun s => Some (tt, s, [c]).

Definition set_world (l : loc) (w : World) (s : Store) : Store :=
  mkStore (window s) (<[l := w]> (worlds s)) (points s) (literals s) (fresh s).

Definition set_point (l : loc) (p : Point) (s : Store) : Store :=
  mkStore (window s) (worlds s) (<[l := p]> (points s)) (literals s) (fresh s).

Definition set_literal (l : loc) (o : gmap string Value) (s : Store) : Store :=
  mkStore (window s) (worlds s) (points s) (<[l := o]> (literals s)) (fresh s).

(** [array[i]] followed by a property access: reading a property of
    [undefined] raises. *)
Definition element (array : list loc) (i : nat) : M loc :=
  match array !! i with
  | Some l => ret l
  | None => throw
  end.

(** Assignments to the fields of a World and of a Point. *)
Definition set_width (v : number) (w : World) : World :=
  mkWorld v (height w) (gravity w) (points_ w) (constraints_ w)
          (scale_ w) (maxScale_ w).
Definition set_height (v : number) (w : World) : World :=
  mkWorld (width w) v (gravity w) (points_ w) (constraints_ w)
          (scale_ w) (maxScale_ w).
Definition set_gravity (v : vec2.t A) (w : World) : World :=
  mkWorld (width w) (height w) v (points_ w) (constraints_ w)
          (scale_ w) (maxScale_ w).
Definition set_points_ (v : list loc) (w : World) : World :=
  mkWorld (width w) (height w) (gravity w) v (constraints_ w)
          (scale_ w) (maxScale_ w).
Definition set_constraints_ (v : list loc) (w : World) : World :=
  mkWorld (width w) (height w) (gravity w) (points_ w) v
          (scale_ w) (maxScale_ w).
Definition set_scale_ (v : vec2.t A) (w : World) : World :=
  mkWorld (width w) (height w) (gravity w) (points_ w) (constraints_ w)
          v (maxScale_ w).
Definition set_maxScale_ (v : number) (w : World) : World :=
  mkWorld (width w) (height w) (gravity w) (points_ w) (constraints_ w)
          (scale_ w) v.
Definition set_current (v : vec2.t A) (p : Point) : Point :=
  mkPoint v (radius p) (interactive p).
Definition set_current_0 (v : number) (p : Point) : Point :=
  mkPoint (vec2.createFrom v (vec2.c1 (current p))) (radius p) (interactive p).
Definition set_current_1 (v : number) (p : Point) : Point :=
  mkPoint (vec2.createFrom (vec2.c0 (current p)) v) (radius p) (interactive p).

(** [this.field = v] and [point.current = v], on the object in the store. *)
Definition assign (this : loc) (f : World -> World) : M unit :=
  modify (fun s => set_world this (f (worlds s this)) s).
Definition assign_point (point : loc) (f : Point -> Point) : M unit :=
  modify (fun s => set_point point (f (points s point)) s).

(** A method of a collaborator that is not part of the source (a Point, a
    Constraint, their constructors): it transforms the store, and the calls
    it makes itself are its own business. *)
Definition external {X} (f : Store -> X * Store) : M X :=
  fun s => Some (f s, []).

(** [new World]: a fresh object whose fields are those of the prototype. *)
Definition new_object : M loc :=
  fun s =>
    Some (fresh s,
          mkStore (window s) (<[fresh s := World_prototype]> (worlds s))
                  (points s) (literals s) (S (fresh s)),
          []).

(** ** The host of [draw] *)

(** [draw] assigns to [i] and [l] without declaring them: they are
    properties of the global object, which any function called meanwhile can
    read and write.  The host is the store together with these two globals,
    taken to hold natural numbers. *)
Record Host : Type := mkHost {
  store : Store;
  global_i : nat;
  global_l : nat
}.

(** What has been asked to draw itself, into which context. *)
Inductive Drawn : Type :=
  | Dconstraint (c context : loc)
  | Dpoint (p context : loc).

(** How a method that loops on the globals ends: it returns, it raises, or
    the turns allowed did not suffice. *)
Inductive Outcome : Type :=
  | Returned (h : Host) (drawn : list Drawn)
  | Raised
  | OutOfFuel.

(** [for (...; i < l; i++) array[i].draw(context)] once [i] and [l] have
    been initialised: the test, the index and the increment read the
    globals as the method called has left them. *)
Fixpoint draw_loop (fuel : nat) (array : Store -> list loc)
    (mark : loc -> Drawn) (method : loc -> Host -> Host) (h : Host)
    : Outcome :=
  match fuel with
  | O => OutOfFuel
  | S fuel' =>
      if (global_i h <? global_l h)%nat then
        match array (store h) !! global_i h with
        | None => Raised
        | Some object =>
            let h1 := method object h in
            let h2 := mkHost (store h1) (S (global_i h1)) (global_l h1) in
            match draw_loop fuel' array mark method h2 with
            | Returned h3 drawn => Returned h3 (mark object :: drawn)
            | Raised => Raised
            | OutOfFuel => OutOfFuel
            end
        end
      else Returned h []
  end.

End Objects.

Arguments Point A : clear implicits.
Arguments World A : clear implicits.
Arguments Value A : clear implicits.
Arguments Window A : clear implicits.
Arguments Store A : clear implicits.
Arguments Call A : clear implicits.
Arguments M A X : clear implicits.
Arguments Host A : clear implicits.
Arguments Outcome A : clear implicits.

Declare Scope js_scope.
Delimit Scope js_scope with js.
Notation "x <- m ;; k" := (bind m (fun x => k))
  (at level 100, m at next level, right associativity) : js_scope.
Notation "m ;; k" := (bind m (fun _ => k))
  (at level 100, right associativity) : js_scope.

(** [for (i = from; i < l; i++) body(i)], with [n = l - from] iterations
    left. *)
Fixpoint for_ {A : Arith} (n : nat) (from : nat) (body : nat -> M A unit)
    : M A unit :=
  match n with
  | O => ret tt
  | S n' => (body from ;; for_ n' (S from) body)%js
  end.

(** ** The World *)

Module World.

Section Methods.

Context {A : Arith}.

Definition DT : number := lit 16.

Definition MIN_DIMENSION : number := lit 10.

Definition setSize (this : loc) : M A unit :=
  (called (CsetSize this) ;;
   innerWidth <- gets (fun s => innerWidth (window s)) ;;
   innerHeight <- gets (fun s => innerHeight (window s)) ;;
   (if (innerWidth >? innerHeight)%num then
      assign this
        (set_width (MIN_DIMENSION * (innerWidth / innerHeight))%num) ;;
      assign this (set_height MIN_DIMENSION) ;;
      this_width <- gets (fun s => width (worlds s this)) ;;
      assign this (set_maxScale_ (innerWidth / this_width)%num)
    else
      assign this (set_width MIN_DIMENSION) ;;
      assign this
        (set_height (MIN_DIMENSION * (innerHeight / innerWidth))%num) ;;
      this_height <- gets (fun s => height (worlds s this)) ;;
      assign this (set_maxScale_ (innerHeight / this_height)%num)) ;;
   this_width <- gets (fun s => width (worlds s this)) ;;
   this_height <- gets (fun s => height (worlds s this)) ;;
   assign this
     (set_scale_ (vec2.createFrom (innerWidth / this_width)%num
                                  (innerHeight / this_height)%num)))%js.

(** [new World(...arguments)]: the function declares no parameter, so
    whatever the caller passes is dropped. *)
Definition new (arguments : list (Value A)) : M A loc :=
  (this <- new_object ;;
   assign this (set_gravity (vec2.createFrom (lit 0) (lit 0))) ;;
   assign this (set_points_ []) ;;
   assign this (set_constraints_ []) ;;
   setSize this ;;
   ret this)%js.

Definition pointToPixels (this point : loc) : M A (vec2.t A) :=
  (point_current <- gets (fun s => current (points s point)) ;;
   this_scale_ <- gets (fun s => scale_ (worlds s this)) ;;
   ret (vec2.multiply point_current this_scale_))%js.

Definition valueToPixels (this : loc) (value : number) : M A number :=
  (this_maxScale_ <- gets (fun s => maxScale_ (worlds s this)) ;;
   ret (value * this_maxScale_)%num)%js.

(** Each point owns the array it holds in [current]: the two in-place
    updates below write to the arrays of [point1] and of [point2]. *)
Definition collidePoints_ (this point1 point2 : loc) : M A unit :=
  (called (CcollidePoints_ point1 point2) ;;
   point1_current <- gets (fun s => current (points s point1)) ;;
   point2_current <- gets (fun s => current (points s point2)) ;;
   let between := vec2.subtract point1_current point2_current in
   point1_radius <- gets (fun s => radius (points s point1)) ;;
   point2_radius <- gets (fun s => radius (points s point2)) ;;
   let distance :=
     (vec2.length between - point1_radius - point2_radius)%num in
   if (distance >=? lit 0)%num then ret tt
   else
     let direction := vec2.normalize between in
     let adjustment := vec2.scale direction (- distance / lit 2)%num in
     point1_current <- gets (fun s => current (points s point1)) ;;
     assign_point point1 (set_current (vec2.add point1_current adjustment)) ;;
     point2_current <- gets (fun s => current (points s point2)) ;;
     assign_point point2
       (set_current (vec2.subtract point2_current adjustment)))%js.

Definition interact (this point : loc) : M A unit :=
  (l <- gets (fun s => List.length (points_ (worlds s this))) ;;
   for_ l 0 (fun i =>
     this_points_ <- gets (fun s => points_ (worlds s this)) ;;
     point2 <- element this_points_ i ;;
     point2_interactive <- gets (fun s => interactive (points s point2)) ;;
     if negb (Nat.eqb point point2) && point2_interactive
     then collidePoints_ this point point2
     else ret tt) ;;
   (* Collide with the edges of the system. *)
   current <- gets (fun s => current (points s point)) ;;
   r <- gets (fun s => radius (points s point)) ;;
   let x := vec2.c0 current in
   let y := vec2.c1 current in
   this_width <- gets (fun s => width (worlds s this)) ;;
   assign_point point
     (set_current_0
        (if (x <? r)%num then r
         else if (x >? this_width - r)%num then (this_width - r)%num
         else x)) ;;
   this_height <- gets (fun s => height (worlds s this)) ;;
   assign_point point
     (set_current_1
        (if (y <? r)%num then r
         else if (y >? this_height - r)%num then (this_height - r)%num
         else y)))%js.

Section Collaborators.

(** [constraint.satisfy(dt)] and [point.move(dt)]. *)
Variable satisfy : loc -> number -> Store A -> Store A.
Variable move : loc -> number -> Store A -> Store A.

(** [new Point(options)] and [new Constraint(options)]: the identity of
    the object built, and the store after the constructor has run. *)
Variable new_Point : loc -> Store A -> loc * Store A.
Variable new_Constraint : loc -> Store A -> loc * Store A.

Definition addPoint (this options : loc) : M A loc :=
  (modify (fun s =>
     set_literal options
       (<["world" := VObject this]> (literals s options)) s) ;;
   point <- external (new_Point options) ;;
   this_points_ <- gets (fun s => points_ (worlds s this)) ;;
   assign this (set_points_ (this_points_ ++ [point])) ;;
   ret point)%js.

Definition addConstraint (this options : loc) : M A loc :=
  (modify (fun s =>
     set_literal options
       (<["world" := VObject this]> (literals s options)) s) ;;
   constraint <- external (new_Constraint options) ;;
   this_constraints_ <- gets (fun s => constraints_ (worlds s this)) ;;
   assign this (set_constraints_ (this_constraints_ ++ [constraint])) ;;
   ret constraint)%js.

Definition step (this : loc) : M A unit :=
  (l <- gets (fun s => List.length (constraints_ (worlds s this))) ;;
   for_ l 0 (fun i =>
     this_constraints_ <- gets (fun s => constraints_ (worlds s this)) ;;
     constraint <- element this_constraints_ i ;;
     called (Csatisfy constraint DT) ;;
     external (fun s => (tt, satisfy constraint DT s))) ;;
   l <- gets (fun s => List.length (points_ (worlds s this))) ;;
   for_ l 0 (fun i =>
     this_points_ <- gets (fun s => points_ (worlds s this)) ;;
     point <- element this_points_ i ;;
     called (Cmove point DT) ;;
     external (fun s => (tt, move point DT s))))%js.

End Collaborators.

Section Drawing.

(** [constraint.draw(context)] and [point.draw(context)]. *)
Variable draw_Constraint : loc -> loc -> Host A -> Host A.
Variable draw_Point : loc -> loc -> Host A -> Host A.

Definition draw (fuel : nat) (this context : loc) (h : Host A)
    : Outcome A :=
  let h0 :=
    mkHost (store h) 0
           (List.length (constraints_ (worlds (store h) this))) in
  match draw_loop fuel (fun s => constraints_ (worlds s this))
                  (fun c => Dconstraint c context)
                  (fun c => draw_Constraint c context) h0 with
  | Returned h1 drawn1 =>
      let h2 :=
        mkHost (store h1) 0
               (List.length (points_ (worlds (store h1) this))) in
      match draw_loop fuel (fun s => points_ (worlds s this))
                      (fun p => Dpoint p context)
                      (fun p => draw_Point p context) h2 with
      | Returned h3 drawn2 => Returned h3 (drawn1 ++ drawn2)
      | Raised => Raised
      | OutOfFuel => OutOfFuel
      end
  | Raised => Raised
  | OutOfFuel => OutOfFuel
  end.

End Drawing.

End Methods.

End World.

(** ** Vocabulary of the properties *)

Section Vocabulary.

Context {A : Arith}.

(** What a store keeps when a method only writes to World objects. *)
Definition same_but_worlds (s s' : Store A) : Prop :=
  window s' = window s /\ points s' = points s /\
  literals s' = literals s /\ fresh s' = fresh s.

(** The World that [setSize] leaves, from the viewport and the World before. *)
Definition sized (vw vh : number) (w : World A) : World A :=
  if (vw >? vh)%num then
    mkWorld (World.MIN_DIMENSION * (vw / vh))%num World.MIN_DIMENSION
            (gravity w) (points_ w) (constraints_ w)
            (vec2.createFrom (vw / (World.MIN_DIMENSION * (vw / vh)))%num
                             (vh / World.MIN_DIMENSION)%num)
            (vw / (World.MIN_DIMENSION * (vw / vh)))%num
  else
    mkWorld World.MIN_DIMENSION (World.MIN_DIMENSION * (vh / vw))%num
            (gravity w) (points_ w) (constraints_ w)
            (vec2.createFrom (vw / World.MIN_DIMENSION)%num
                             (vh / (World.MIN_DIMENSION * (vh / vw)))%num)
            (vh / (World.MIN_DIMENSION * (vh / vw)))%num.

(** The signed gap between two points as [collidePoints_] computes it:
    the length, minus one radius, minus the other. *)
Definition gap (s : Store A) (p1 p2 : loc) : number :=
  (vec2.length (vec2.subtract (current (points s p1)) (current (points s p2)))
   - radius (points s p1) - radius (points s p2))%num.

(** Half of the overlap, along the unit vector from [p2] to [p1]. *)
Definition correction (s : Store A) (p1 p2 : loc) : vec2.t A :=
  vec2.scale
    (vec2.normalize
       (vec2.subtract (current (points s p1)) (current (points s p2))))
    (- gap s p1 p2 / lit 2)%num.

(** What a store keeps when a method only moves points. *)
Definition only_moved (s s' : Store A) : Prop :=
  window s' = window s /\ worlds s' = worlds s /\
  literals s' = literals s /\ fresh s' = fresh s /\
  forall q, radius (points s' q) = radius (points s q) /\
            interactive (points s' q) = interactive (points s q).

(** The test of the loop of [interact]: [point !== point2 &&
    point2.interactive]. *)
Definition collides_with (s : Store A) (point point2 : loc) : bool :=
  negb (Nat.eqb point point2) && interactive (points s point2).

(** The points [interact] passes to [collidePoints_], in order. *)
Definition partners (s : Store A) (this point : loc) : list loc :=
  List.filter (collides_with s point) (points_ (worlds s this)).

(** The body of the loop of [interact]. *)
Definition collide_at (this point : loc) (i : nat) : M A unit :=
  (this_points_ <- gets (fun s => points_ (worlds s this)) ;;
   point2 <- element this_points_ i ;;
   point2_interactive <- gets (fun s => interactive (points s point2)) ;;
   if negb (Nat.eqb point point2) && point2_interactive
   then World.collidePoints_ this point point2
   else ret tt)%js.

(** The position [interact] leaves along one axis: [x] moved back between
    [r] and [extent - r]. *)
Definition clamped (x r extent : number) : number :=
  if (x <? r)%num then r
  else if (x >? extent - r)%num then (extent - r)%num
  else x.

(** The store after the edges have been dealt with. *)
Definition edges (this point : loc) (s : Store A) : Store A :=
  let c := current (points s point) in
  let r := radius (points s point) in
  let s0 :=
    set_point point
      (set_current_0 (clamped (vec2.c0 c) r (width (worlds s this)))
                     (points s point)) s in
  set_point point
    (set_current_1 (clamped (vec2.c1 c) r (height (worlds s this)))
                   (points s0 point)) s0.

(** [m] called [n] times in succession. *)
Fixpoint repeatedly (n : nat) (m : M A unit) : M A unit :=
  match n with
  | O => ret tt
  | S n' => (m ;; repeatedly n' m)%js
  end.

(** A collaborator's method leaves the collections of the World alone. *)
Definition keeps_collections (this : loc) (f : Store A -> Store A) : Prop :=
  forall s,
    constraints_ (worlds (f s) this) = constraints_ (worlds s this) /\
    points_ (worlds (f s) this) = points_ (worlds s this).

(** A loop of [step]: [for (...) array[i].method(DT)], where [array] is read
    from the World at each turn. *)
Definition call_each (array : Store A -> list loc) (call : loc -> Call A)
    (method : loc -> Store A -> Store A) (i : nat) : M A unit :=
  (this_array <- gets array ;;
   object <- element this_array i ;;
   called (call object) ;;
   external (fun s => (tt, method object s)))%js.

(** The options object with the back-reference to the World written in. *)
Definition tagged (this options : loc) (s : Store A) : Store A :=
  set_literal options (<["world" := VObject this]> (literals s options)) s.

(** A constructor leaves the options object it is given, and the World, as
    they are. *)
Definition reads_only (this options : loc)
    (constructor : loc -> Store A -> loc * Store A) : Prop :=
  forall s,
    literals (snd (constructor options s)) options = literals s options /\
    worlds (snd (constructor options s)) this = worlds s this.

(** A collaborator's method may push onto a collection of the World, but
    leaves what the collection holds where it is. *)
Definition only_appends (array : Store A -> list loc)
    (f : Store A -> Store A) : Prop :=
  forall s, array s `prefix_of` array (f s).

(** A [draw] method of a collaborator leaves the globals [i] and [l] and the
    two collections of the World alone. *)
Definition leaves_loop_alone (this : loc) (method : Host A -> Host A)
    : Prop :=
  forall h,
    global_i (method h) = global_i h /\
    global_l (method h) = global_l h /\
    constraints_ (worlds (store (method h)) this)
      = constraints_ (worlds (store h) this) /\
    points_ (worlds (store (method h)) this)
      = points_ (worlds (store h) this).

(** The host after [method] has been called on each object in turn, [i]
    being incremented after each call. *)
Definition each_drawn (method : loc -> Host A -> Host A)
    (objects : list loc) (h : Host A) : Host A :=
  fold_left
    (fun h object =>
       mkHost (store (method object h)) (S (global_i (method object h)))
              (global_l (method object h)))
    objects h.

(** The host when a loop of [draw] over [objects] begins. *)
Definition loop_entered (objects : list loc) (h : Host A) : Host A :=
  mkHost (store h) 0 (List.length objects).

End Vocabulary.

(** An arithmetic in which [a <= b] excludes [b < a], as it does for the
    reals and for the doubles. *)
Definition le_excludes_gt (A : Arith) : Prop :=
  forall a b : number, (a <=? b)%num = true -> (b <? a)%num = false.

(** An arithmetic in which what [<=] relates are numbers, a number being
    what is [<=] itself, as for the reals and for the doubles, where [NaN]
    alone is not a number. *)
Definition le_relates_numbers (A : Arith) : Prop :=
  forall a b : number,
    (a <=? b)%num = true -> (a <=? a)%num = true /\ (b <=? b)%num = true.

(** An arithmetic in which, of two numbers, [a <= b] unless [b < a], as for
    the reals and for the doubles. *)
Definition le_unless_gt (A : Arith) : Prop :=
  forall a b : number,
    (a <=? a)%num = true -> (b <=? b)%num = true ->
    (b <? a)%num = false -> (a <=? b)%num = true.

(** ** Scenarios *)

Section Scenarios.

Context {A : Arith}.

(** A store with no object yet, for a given viewport. *)
Definition empty_store (w : Window A) : Store A :=
  mkStore w (fun _ => World_prototype)
          (fun _ => mkPoint vec2.create (lit 0) false) (fun _ => ∅) 0%nat.

(** The specification's scenario: a viewport of 800 by 600. *)
Definition store_800_600 : Store A :=
  empty_store (mkWindow (lit 800) (lit 600)).


(** A viewport of 1536 by 864. *)
Definition store_1536_864 : Store A :=
  empty_store (mkWindow (lit 1536) (lit 864)).

(** A square World of side 10 at identity 0, in a viewport of 600 by 600,
    holding the points of identities 1 and 2. *)
Definition world_of_two : World A :=
  mkWorld (lit 10) (lit 10) (vec2.createFrom (lit 0) (lit 0))
          [1%nat; 2%nat] []
          (vec2.createFrom (lit 60) (lit 60)) (lit 60).

Definition store_of_two (a b : Point A) : Store A :=
  mkStore (mkWindow (lit 600) (lit 600))
          (fun l => match l with
                    | 0%nat => world_of_two
                    | _ => World_prototype
                    end)
          (fun l => match l with
                    | 1%nat => a
                    | 2%nat => b
                    | _ => mkPoint vec2.create (lit 0) false
                    end)
          (fun _ => ∅) 3%nat.



(** Two points of radius 1 at (0, 0) and (3, 0): they do not touch. *)
Definition store_apart : Store A :=
  store_of_two
    (mkPoint (vec2.createFrom (lit 0) (lit 0)) (lit 1) true)
    (mkPoint (vec2.createFrom (lit 3) (lit 0)) (lit 1) true).

(** A point that is not interactive, overlapping one that is. *)
Definition store_bystander : Store A :=
  store_of_two
    (mkPoint (vec2.createFrom (lit 0) (lit 0)) (lit 1) false)
    (mkPoint (vec2.createFrom (lit 3 / lit 2)%num (lit 0)) (lit 1) true).

(** A point of radius 1 at (5, 5), well inside the square of side 10, next
    to a point that is not interactive. *)
Definition store_inside : Store A :=
  store_of_two
    (mkPoint (vec2.createFrom (lit 5) (lit 5)) (lit 1) true)
    (mkPoint (vec2.createFrom (lit 11 / lit 2)%num (lit 5)) (lit 1) false).

(** A point of radius 1 at (-1, 11), outside the square of side 10 on both
    axes, and a point that is not interactive. *)
Definition store_outside : Store A :=
  store_of_two
    (mkPoint (vec2.createFrom (lit (-1)) (lit 11)) (lit 1) true)
    (mkPoint (vec2.createFrom (lit 5) (lit 5)) (lit 1) false).

(** The specification's scenario for the order of a step: a World with one
    constraint (identity 7) and one point (identity 1). *)
Definition store_one_each : Store A :=
  mkStore (mkWindow (lit 600) (lit 600))
          (fun l => match l with
                    | 0%nat => mkWorld (lit 10) (lit 10)
                                       (vec2.createFrom (lit 0) (lit 0))
                                       [1%nat] [7%nat]
                                       (vec2.createFrom (lit 60) (lit 60))
                                       (lit 60)
                    | _ => World_prototype
                    end)
          (fun l => match l with
                    | 1%nat => mkPoint (vec2.createFrom (lit 5) (lit 5))
                                       (lit 1) true
                    | _ => mkPoint vec2.create (lit 0) false
                    end)
          (fun _ => ∅) 8%nat.

(** A World with two constraints (identities 7 and 8) and one point. *)
Definition store_two_constraints : Store A :=
  set_world 0%nat
    (set_constraints_ [7%nat; 8%nat] (worlds store_one_each 0%nat))
    store_one_each.

(** A constraint that pins point 1 at (5, 5). *)
Definition pin_satisfy (c : loc) (dt : number) (s : Store A) : Store A :=
  set_point 1%nat
    (set_current (vec2.createFrom (lit 5) (lit 5)) (points s 1%nat)) s.

(** A constraint whose [satisfy] pushes a new constraint (identity 8) and a
    new point (identity 9) onto World 0. *)
Definition spawning_satisfy (c : loc) (dt : number) (s : Store A)
    : Store A :=
  set_world 0%nat
    (set_constraints_ (constraints_ (worlds s 0%nat) ++ [8%nat])
       (set_points_ (points_ (worlds s 0%nat) ++ [9%nat]) (worlds s 0%nat)))
    s.

(** A constraint whose [satisfy] empties the constraints of World 0. *)
Definition vanishing_satisfy (c : loc) (dt : number) (s : Store A)
    : Store A :=
  set_world 0%nat (set_constraints_ [] (worlds s 0%nat)) s.

(** A point whose [move] lets it fall by [dt / 16] and then calls
    [world.interact(this)] on World 0. *)
Definition falling_move (p : loc) (dt : number) (s : Store A) : Store A :=
  let fallen :=
    set_point p
      (set_current (vec2.add (current (points s p))
                             (vec2.createFrom (lit 0) (dt / lit 16)%num))
                   (points s p)) s in
  match World.interact 0%nat p fallen with
  | Some (_, s', _) => s'
  | None => fallen
  end.

(** A Point constructor: it reads [current], [radius] and [interactive]
    from the options and allocates the point. *)
Definition build_Point (options : loc) (s : Store A) : loc * Store A :=
  let o := literals s options in
  let built :=
    mkPoint
      (match o !! "current" with Some (VVector v) => v | _ => vec2.create end)
      (match o !! "radius" with Some (VNumber r) => r | _ => lit 1 end)
      (match o !! "interactive" with Some (VBoolean b) => b | _ => true end) in
  (fresh s,
   mkStore (window s) (worlds s) (<[fresh s := built]> (points s))
           (literals s) (S (fresh s))).

(** A Constraint constructor: it allocates the constraint. *)
Definition build_Constraint (options : loc) (s : Store A) : loc * Store A :=
  (fresh s,
   mkStore (window s) (worlds s) (points s) (literals s) (S (fresh s))).

(** The caller's object literal [{radius: 2}], at identity 5. *)
Definition store_with_options : Store A :=
  set_literal 5%nat (<["radius" := VNumber (lit 2)]> ∅) store_inside.

(** A [draw] method that shows the object by marking it as drawn in the
    object literal that stands for the context. *)
Definition marking_draw (object context : loc) (h : Host A) : Host A :=
  mkHost
    (set_literal context
       (<["drawn" := VObject object]> (literals (store h) context))
       (store h))
    (global_i h) (global_l h).

(** A host whose globals [i] and [l] hold 40 and 2 before [draw]. *)
Definition host_one_each : Host A := mkHost store_one_each 40 2.

End Scenarios.

(** A point of radius 3 at (0, 0) and a point at (2, 3) whose radius is
    5454320997066701 / 2^53, the double 0.60555127546398924.  The distance
    between the centres, the square root of 13, is at least the sum of the
    radii. *)
Definition store_grazing {A : Arith} : Store A :=
  store_of_two
    (mkPoint (vec2.createFrom (lit 0) (lit 0)) (lit 3) true)
    (mkPoint (vec2.createFrom (lit 2) (lit 3))
             (lit 5454320997066701 / lit 9007199254740992)%num true).

(** ** Running a method *)

Ltac run :=
  cbv [bind gets modify ret called external assign assign_point];
  cbn [worlds points literals window fresh set_world set_point set_literal].

(** Reading a statement about [Exact] as a statement about real numbers. *)
Ltac exact_arith :=
  cbv [number lit num_add num_sub num_mul num_div num_neg num_sqrt
       num_lt num_le num_max num_min Exact] in *.

Lemma Rltb_true (a b : R) : Rltb a b = true <-> (a < b)%R.
Proof. unfold Rltb. destruct (Rlt_dec a b); split; intros; easy. Qed.

Lemma Rltb_false (a b : R) : Rltb a b = false <-> (b <= a)%R.
Proof.
  unfold Rltb. destruct (Rlt_dec a b); split; intros; try easy; lra.
Qed.

Lemma Rleb_true (a b : R) : Rleb a b = true <-> (a <= b)%R.
Proof. unfold Rleb. destruct (Rle_dec a b); split; intros; easy. Qed.


Section Running.

Context {A : Arith}.

Lemma setSize_runs (this : loc) (s : Store A) :
  exists s',
    World.setSize this s = Some (tt, s', [CsetSize this]) /\
    worlds s' this =
      sized (innerWidth (window s)) (innerHeight (window s)) (worlds s this) /\
    (forall l, l <> this -> worlds s' l = worlds s l) /\
    same_but_worlds s s'.
Proof.
  unfold World.setSize, sized; run.
  destruct (innerWidth (window s) >? innerHeight (window s))%num.
  all: eexists; split; [reflexivity|]; cbn [worlds].
  all: repeat split; cbn; rewrite ?fn_lookup_insert; try reflexivity.
  all: intros; rewrite ?fn_lookup_insert_ne by congruence; reflexivity.
Qed.

Lemma new_runs (arguments : list (Value A)) (s : Store A) :
  exists s',
    World.new arguments s = Some (fresh s, s', [CsetSize (fresh s)]) /\
    worlds s' (fresh s)
      = sized (innerWidth (window s)) (innerHeight (window s))
              (mkWorld (lit 0) (lit 0) (vec2.createFrom (lit 0) (lit 0))
                       [] [] vec2.create (lit 0)).
Proof.
  unfold World.new, new_object; run.
  match goal with
  | |- context [World.setSize ?this ?s1] =>
      destruct (setSize_runs this s1) as (s' & Hrun & Hworld & _)
  end.
  rewrite Hrun. exists s'. split; [reflexivity|].
  rewrite Hworld. cbn [window worlds set_world].
  rewrite !fn_lookup_insert. reflexivity.
Qed.

Lemma collidePoints__apart (this p1 p2 : loc) (s : Store A) :
  (gap s p1 p2 >=? lit 0)%num = true ->
  World.collidePoints_ this p1 p2 s = Some (tt, s, [CcollidePoints_ p1 p2]).
Proof.
  intros Hgap. unfold World.collidePoints_; run. fold (gap s p1 p2).
  rewrite Hgap. reflexivity.
Qed.

Lemma collidePoints__overlap (this p1 p2 : loc) (s : Store A) :
  p1 <> p2 ->
  (gap s p1 p2 >=? lit 0)%num = false ->
  World.collidePoints_ this p1 p2 s
    = Some (tt,
            set_point p2
              (set_current
                 (vec2.subtract (current (points s p2)) (correction s p1 p2))
                 (points s p2))
              (set_point p1
                 (set_current
                    (vec2.add (current (points s p1)) (correction s p1 p2))
                    (points s p1))
                 s),
            [CcollidePoints_ p1 p2]).
Proof.
  intros Hne Hgap. unfold World.collidePoints_; run. fold (gap s p1 p2).
  rewrite Hgap. fold (correction s p1 p2).
  rewrite fn_lookup_insert_ne by exact Hne. reflexivity.
Qed.

Lemma only_moved_refl (s : Store A) : only_moved s s.
Proof. repeat split. Qed.

Lemma only_moved_trans (s1 s2 s3 : Store A) :
  only_moved s1 s2 -> only_moved s2 s3 -> only_moved s1 s3.
Proof.
  intros (Hw & Hws & Hl & Hf & Hq) (Hw' & Hws' & Hl' & Hf' & Hq').
  repeat split; try congruence.
  - destruct (Hq q), (Hq' q); congruence.
  - destruct (Hq q), (Hq' q); congruence.
Qed.

Lemma collidePoints__only_moves (this p1 p2 : loc) (s : Store A) :
  exists s',
    World.collidePoints_ this p1 p2 s = Some (tt, s', [CcollidePoints_ p1 p2]) /\
    only_moved s s'.
Proof.
  unfold World.collidePoints_; run.
  destruct (_ >=? lit 0)%num.
  - exists s. split; [reflexivity|apply only_moved_refl].
  - eexists. split; [reflexivity|].
    repeat split;
      cbn [points set_point window worlds literals fresh];
      try reflexivity;
      unfold insert, fn_insert;
      repeat (destruct (decide _); subst; cbn [radius interactive set_current]);
      reflexivity.
Qed.

Lemma collides_with_only_moved (s s' : Store A) (point : loc) (l : list loc) :
  only_moved s s' ->
  List.filter (collides_with s' point) l = List.filter (collides_with s point) l.
Proof.
  intros (_ & _ & _ & _ & Hq).
  apply List.filter_ext. intros q. unfold collides_with.
  destruct (Hq q) as [_ ->]. reflexivity.
Qed.

Lemma collide_loop (this point : loc) (s : Store A) (n from : nat) :
  (from + n)%nat = List.length (points_ (worlds s this)) ->
  exists s',
    for_ n from (collide_at this point) s
      = Some (tt, s',
              map (CcollidePoints_ point)
                  (List.filter (collides_with s point)
                               (drop from (points_ (worlds s this))))) /\
    only_moved s s' /\
    (List.filter (collides_with s point)
                 (drop from (points_ (worlds s this))) = [] -> s' = s).
Proof.
  revert from s. induction n as [|n IH]; intros from s Hlen.
  - rewrite drop_ge by (rewrite <- Hlen; lia).
    exists s. repeat split.
  - destruct (lookup_lt_is_Some_2 (points_ (worlds s this)) from)
      as [q Hq]; [rewrite <- Hlen; lia|].
    rewrite (drop_S _ _ _ Hq). cbn [for_ List.filter].
    unfold bind at 1. unfold collide_at at 1; run.
    unfold element. rewrite Hq. unfold ret at 1.
    fold (collides_with s point q).
    destruct (collides_with s point q) eqn:Hc.
    + destruct (collidePoints__only_moves this point q s)
        as (s1 & Hrun & Hmoved).
      rewrite Hrun.
      destruct (IH (S from) s1) as (s2 & Hloop & Hmoved' & _).
      { destruct Hmoved as (_ & -> & _). lia. }
      rewrite Hloop. exists s2.
      rewrite (collides_with_only_moved s s1 point _ Hmoved).
      pose proof Hmoved as (_ & Hworlds & _). rewrite Hworlds.
      split; [reflexivity|]. split.
      * eapply only_moved_trans; [exact Hmoved|exact Hmoved'].
      * discriminate.
    + destruct (IH (S from) s) as (s2 & Hloop & Hmoved' & Hnone);
        [lia|].
      rewrite Hloop. exists s2.
      split; [reflexivity|]. split; assumption.
Qed.

Lemma interact_runs (this point : loc) (s : Store A) :
  exists s1,
    World.interact this point s
      = Some (tt, edges this point s1,
              map (CcollidePoints_ point) (partners s this point)) /\
    only_moved s s1 /\
    (partners s this point = [] -> s1 = s).
Proof.
  destruct (collide_loop this point s
              (List.length (points_ (worlds s this))) 0)
    as (s1 & Hloop & Hmoved & Hnone); [reflexivity|].
  rewrite drop_0 in Hloop, Hnone. fold (partners s this point) in Hloop, Hnone.
  exists s1. split; [|split; assumption].
  unfold World.interact. fold (collide_at this point).
  unfold bind at 1, gets at 1. unfold bind at 1. rewrite Hloop.
  run. unfold edges, clamped. cbn [points set_point worlds].
  rewrite app_nil_r. reflexivity.
Qed.

End Running.

(** ** Sizing *)

Lemma ratio_gt_1 (a b : R) : (0 < b -> a > b -> 1 < a / b)%R.
Proof.
  intros Hb Hab. apply Rmult_lt_reg_r with b; [assumption|].
  unfold Rdiv. rewrite Rmult_assoc, Rinv_l by lra. lra.
Qed.

Lemma ratio_ge_1 (a b : R) : (0 < b -> b <= a -> 1 <= a / b)%R.
Proof.
  intros Hb Hab. apply Rmult_le_reg_r with b; [assumption|].
  unfold Rdiv. rewrite Rmult_assoc, Rinv_l by lra. lra.
Qed.

(** What [sized] is when no operation rounds. *)
Lemma sized_exact (vw vh : @number Exact) (w : World Exact) :
  (0 < vw)%R -> (0 < vh)%R ->
  Rmin (width (sized vw vh w)) (height (sized vw vh w)) = 10%R /\
  (Rmax (width (sized vw vh w)) (height (sized vw vh w))
   / Rmin (width (sized vw vh w)) (height (sized vw vh w))
   = Rmax vw vh / Rmin vw vh)%R /\
  vec2.c0 (scale_ (sized vw vh w)) = maxScale_ (sized vw vh w) /\
  vec2.c1 (scale_ (sized vw vh w)) = maxScale_ (sized vw vh w).
Proof.
  intros Hw Hh. unfold sized, World.MIN_DIMENSION. exact_arith.
  unfold Rltb. destruct (Rlt_dec vh vw) as [Hgt|Hle];
    cbn [width height scale_ maxScale_ vec2.c0 vec2.c1].
  - pose proof (ratio_gt_1 vw vh Hh Hgt) as Hr.
    rewrite (Rmin_right (10 * (vw / vh)) 10) by lra.
    rewrite (Rmax_left (10 * (vw / vh)) 10) by lra.
    rewrite (Rmax_left vw vh), (Rmin_right vw vh) by lra.
    repeat split; try reflexivity; field; lra.
  - assert (vw <= vh)%R as Hle' by lra.
    pose proof (ratio_ge_1 vh vw Hw Hle') as Hr.
    rewrite (Rmin_left 10 (10 * (vh / vw))) by lra.
    rewrite (Rmax_right 10 (10 * (vh / vw))) by lra.
    rewrite (Rmax_right vw vh), (Rmin_left vw vh) by lra.
    repeat split; try reflexivity; field; lra.
Qed.




(** The specification's end-to-end scenario on the doubles of the program:
    in a viewport of 800 by 600 the World is 10 high, its width is the
    double nearest to 10 * (800 / 600) and the height axis has the scale
    factor 60. *)
Example setSize_800_600 :
  exists s' calls,
    World.setSize 0%nat (store_800_600 (A:=Binary64))
      = Some (tt, s', calls) /\
    height (worlds s' 0%nat) = lit 10 /\
    width (worlds s' 0%nat) = (lit 10 * (lit 800 / lit 600))%num /\
    vec2.c1 (scale_ (worlds s' 0%nat)) = lit 60.
Proof.
  destruct (setSize_runs 0%nat (store_800_600 (A:=Binary64)))
    as (s' & Hrun & Hworld & _).
  exists s', [CsetSize 0%nat]. split; [exact Hrun|].
  rewrite Hworld. repeat split; vm_compute; reflexivity.
Qed.

(** C4, as the code has it.  In every arithmetic, so for the doubles of the
    program, after [setSize] the scale is (viewport width / width, viewport
    height / height) and [maxScale_] is its component along the axis whose
    extent is not [MIN_DIMENSION]: the width axis when the viewport is wider
    than tall, the height being [MIN_DIMENSION], and the height axis
    otherwise, the width being [MIN_DIMENSION].  Without rounding, for a
    viewport of positive width and height, the two components are equal, so
    that [maxScale_] is also the component along the axis whose extent is
    [MIN_DIMENSION], and the larger of the two. *)
Theorem setSize_scale_consistent :
  (forall (A : Arith) (this : loc) (s : Store A),
     exists s' calls,
       World.setSize this s = Some (tt, s', calls) /\
       scale_ (worlds s' this)
         = vec2.createFrom
             (innerWidth (window s) / width (worlds s' this))%num
             (innerHeight (window s) / height (worlds s' this))%num /\
       if (innerWidth (window s) >? innerHeight (window s))%num
       then height (worlds s' this) = World.MIN_DIMENSION /\
            maxScale_ (worlds s' this) = vec2.c0 (scale_ (worlds s' this))
       else width (worlds s' this) = World.MIN_DIMENSION /\
            maxScale_ (worlds s' this) = vec2.c1 (scale_ (worlds s' this))) /\
  (forall (this : loc) (s : Store Exact),
     (0 < innerWidth (window s))%R ->
     (0 < innerHeight (window s))%R ->
     exists s' calls,
       World.setSize this s = Some (tt, s', calls) /\
       Rmin (width (worlds s' this)) (height (worlds s' this))
         = World.MIN_DIMENSION (A:=Exact) /\
       vec2.c0 (scale_ (worlds s' this)) = maxScale_ (worlds s' this) /\
       vec2.c1 (scale_ (worlds s' this)) = maxScale_ (worlds s' this) /\
       maxScale_ (worlds s' this)
         = Rmax (vec2.c0 (scale_ (worlds s' this)))
                (vec2.c1 (scale_ (worlds s' this)))).
Proof.
  split.
  - intros A this s.
    destruct (setSize_runs this s) as (s' & Hrun & Hworld & _).
    exists s', [CsetSize this]. split; [exact Hrun|].
    rewrite Hworld. unfold sized.
    destruct (innerWidth (window s) >? innerHeight (window s))%num;
      repeat split.
  - intros this s Hw Hh.
    destruct (setSize_runs this s) as (s' & Hrun & Hworld & _).
    exists s', [CsetSize this]. split; [exact Hrun|].
    rewrite Hworld.
    destruct (sized_exact _ _ (worlds s this) Hw Hh)
      as (Hmin & _ & H0 & H1).
    repeat (split; [assumption|]).
    rewrite H0, H1. symmetry. apply Rmax_left. apply Rle_refl.
Qed.

Lemma setSize_scale_consistent_witness :
  exists s' calls,
    World.setSize 0%nat (store_800_600 (A:=Exact)) = Some (tt, s', calls) /\
    Rmin (width (worlds s' 0%nat)) (height (worlds s' 0%nat))
      = World.MIN_DIMENSION (A:=Exact) /\
    vec2.c0 (scale_ (worlds s' 0%nat)) = maxScale_ (worlds s' 0%nat) /\
    vec2.c1 (scale_ (worlds s' 0%nat)) = maxScale_ (worlds s' 0%nat) /\
    maxScale_ (worlds s' 0%nat)
      = Rmax (vec2.c0 (scale_ (worlds s' 0%nat)))
             (vec2.c1 (scale_ (worlds s' 0%nat))).
Proof.
  apply (proj2 setSize_scale_consistent 0%nat store_800_600);
    cbn; exact_arith; lra.
Defined.

(** C4 as stated fails on the doubles of the program.  In a viewport of 800
    by 600 the height is [MIN_DIMENSION], yet the scale along the height is
    not [maxScale_].  In a viewport of 1536 by 864 [maxScale_] is smaller
    than the scale along the height, so it is not the larger of the two. *)
Lemma setSize_maxScale_is_rounded :
  (exists s' calls,
     World.setSize 0%nat (store_800_600 (A:=Binary64))
       = Some (tt, s', calls) /\
     height (worlds s' 0%nat) = World.MIN_DIMENSION /\
     vec2.c1 (scale_ (worlds s' 0%nat)) <> maxScale_ (worlds s' 0%nat)) /\
  (exists s' calls,
     World.setSize 0%nat (store_1536_864 (A:=Binary64))
       = Some (tt, s', calls) /\
     (maxScale_ (worlds s' 0%nat) <? vec2.c1 (scale_ (worlds s' 0%nat)))%num
       = true /\
     maxScale_ (worlds s' 0%nat)
       <> num_max (vec2.c0 (scale_ (worlds s' 0%nat)))
                  (vec2.c1 (scale_ (worlds s' 0%nat)))).
Proof.
  split.
  - destruct (setSize_runs 0%nat (store_800_600 (A:=Binary64)))
      as (s' & Hrun & Hworld & _).
    exists s', [CsetSize 0%nat]. split; [exact Hrun|].
    rewrite Hworld. split.
    + vm_compute. reflexivity.
    + intros H. apply (f_equal FloatOps.Prim2SF) in H.
      vm_compute in H. discriminate.
  - destruct (setSize_runs 0%nat (store_1536_864 (A:=Binary64)))
      as (s' & Hrun & Hworld & _).
    exists s', [CsetSize 0%nat]. split; [exact Hrun|].
    rewrite Hworld. split.
    + vm_compute. reflexivity.
    + intros H. apply (f_equal FloatOps.Prim2SF) in H.
      vm_compute in H. discriminate.
Qed.

Section Conversion.

Context {A : Arith}.

(** C9. [pointToPixels] returns the point's position multiplied component
    by component by the World's scale, and [valueToPixels v] returns [v]
    times [maxScale_]; neither writes to the store nor calls anything. *)
Theorem conversion_to_pixels (this point : loc) (v : number) (s : Store A) :
  World.pointToPixels this point s
    = Some (vec2.createFrom
              (vec2.c0 (current (points s point))
               * vec2.c0 (scale_ (worlds s this)))%num
              (vec2.c1 (current (points s point))
               * vec2.c1 (scale_ (worlds s this)))%num,
            s, []) /\
  World.valueToPixels this v s
    = Some ((v * maxScale_ (worlds s this))%num, s, []).
Proof.
  split; reflexivity.
Qed.

End Conversion.

(** ** Construction *)

Section Construction.

Context {A : Arith}.

(** C6, as the code has it. The constructor declares no parameter: whatever
    is passed, the World built has the zero vector as gravity and no point
    and no constraint, and it has been sized to the viewport by the one
    call the constructor makes, to [setSize]. *)
Theorem new_World_gravity_zero (arguments : list (Value A)) (s : Store A) :
  exists this s',
    World.new arguments s = Some (this, s', [CsetSize this]) /\
    gravity (worlds s' this) = vec2.createFrom (lit 0) (lit 0) /\
    points_ (worlds s' this) = [] /\
    constraints_ (worlds s' this) = [] /\
    worlds s' this
      = sized (innerWidth (window s)) (innerHeight (window s))
              (set_constraints_ []
                 (set_points_ []
                    (set_gravity (vec2.createFrom (lit 0) (lit 0))
                                 World_prototype))).
Proof.
  destruct (new_runs arguments s) as (s' & Hrun & Hworld).
  exists (fresh s), s'. split; [exact Hrun|].
  rewrite Hworld. unfold sized.
  destruct (_ >? _)%num; cbn [gravity points_ constraints_].
  all: repeat split.
Qed.

End Construction.

(** C6 as stated fails: constructing a World with the gravity vector (0, 10)
    yields a World whose gravity is not that vector. *)
Lemma new_World_drops_gravity :
  exists this s' calls,
    World.new [VVector (vec2.createFrom (lit 0) (lit 10))]
              (store_800_600 (A:=Binary64))
      = Some (this, s', calls) /\
    gravity (worlds s' this) <> vec2.createFrom (lit 0) (lit 10).
Proof.
  destruct (new_runs [VVector (vec2.createFrom (lit 0) (lit 10))]
              (store_800_600 (A:=Binary64)))
    as (s' & Hrun & Hworld).
  eexists _, s', _. split; [exact Hrun|].
  rewrite Hworld. intros H.
  apply (f_equal (fun v : vec2.t Binary64 =>
                    FloatOps.Prim2SF (vec2.c1 v))) in H.
  vm_compute in H. discriminate.
Qed.

(** ** Further properties of sizing *)

Section Sizing.

Context {A : Arith}.

Lemma sized_again (vw vh : number) (w : World A) :
  sized vw vh (sized vw vh w) = sized vw vh w.
Proof. unfold sized. destruct (vw >? vh)%num; reflexivity. Qed.

Lemma store_ext (s s' : Store A) :
  window s' = window s ->
  (forall l, worlds s' l = worlds s l) ->
  points s' = points s ->
  literals s' = literals s ->
  fresh s' = fresh s ->
  s' = s.
Proof.
  destruct s, s'. cbn. intros -> Hworlds -> -> ->. f_equal.
  apply functional_extensionality. exact Hworlds.
Qed.

(** X3. Whatever the viewport, [setSize] writes only to the extent and the
    scale of its World: the gravity, the two collections, every other World,
    every point and every object literal are as they were.  Called again
    while the viewport has not changed, it leaves the store it finds. *)
Theorem setSize_preserves_and_settles (this : loc) (s : Store A) :
  exists s',
    World.setSize this s = Some (tt, s', [CsetSize this]) /\
    gravity (worlds s' this) = gravity (worlds s this) /\
    points_ (worlds s' this) = points_ (worlds s this) /\
    constraints_ (worlds s' this) = constraints_ (worlds s this) /\
    (forall other, other <> this -> worlds s' other = worlds s other) /\
    points s' = points s /\
    literals s' = literals s /\
    window s' = window s /\
    World.setSize this s' = Some (tt, s', [CsetSize this]).
Proof.
  destruct (setSize_runs this s)
    as (s' & Hrun & Hworld & Hothers & Hwindow & Hpoints & Hliterals & Hfresh).
  exists s'. split; [exact Hrun|].
  assert (gravity (worlds s' this) = gravity (worlds s this) /\
          points_ (worlds s' this) = points_ (worlds s this) /\
          constraints_ (worlds s' this) = constraints_ (worlds s this))
    as (Hg & Hp & Hc).
  { rewrite Hworld. unfold sized.
    destruct (_ >? _)%num; repeat split. }
  repeat (split; [assumption|]).
  destruct (setSize_runs this s')
    as (s'' & Hrun' & Hworld' & Hothers' & Hwindow' & Hpoints' & Hliterals'
        & Hfresh').
  rewrite Hrun'. do 3 f_equal. apply store_ext; try assumption.
  intros l. destruct (Nat.eq_dec l this) as [->|Hne].
  - rewrite Hworld', Hwindow, Hworld. apply sized_again.
  - apply Hothers'. exact Hne.
Qed.

End Sizing.

(** ** Collision of two points *)





Lemma length_horizontal (x0 x1 y : @number Exact) :
  vec2.length (A:=Exact)
    (vec2.subtract (vec2.createFrom x0 y) (vec2.createFrom x1 y))
  = Rabs (x0 - x1)%R.
Proof.
  unfold vec2.length, vec2.subtract. cbn [vec2.c0 vec2.c1]. exact_arith.
  replace (_ + _)%R with (Rsqr (x0 - x1)) by (unfold Rsqr; ring).
  apply sqrt_Rsqr_abs.
Qed.

(** C8, as the code has it.  In every arithmetic, so for the doubles of the
    program, [collidePoints_] returns with the store as it was whenever its
    own test passes: the length, minus one radius, minus the other, is at
    least 0.  Without rounding that is the case whenever the distance
    between the centres is at least the sum of the radii. *)
Theorem collidePoints_no_overlap :
  (forall (A : Arith) (this p1 p2 : loc) (s : Store A),
     (vec2.length
        (vec2.subtract (current (points s p1)) (current (points s p2)))
      - radius (points s p1) - radius (points s p2) >=? lit 0)%num = true ->
     World.collidePoints_ this p1 p2 s
       = Some (tt, s, [CcollidePoints_ p1 p2])) /\
  (forall (this p1 p2 : loc) (s : Store Exact),
     (vec2.length
        (vec2.subtract (current (points s p1)) (current (points s p2)))
      >= radius (points s p1) + radius (points s p2))%R ->
     World.collidePoints_ this p1 p2 s
       = Some (tt, s, [CcollidePoints_ p1 p2])).
Proof.
  split.
  - intros A this p1 p2 s Htest. apply collidePoints__apart. exact Htest.
  - intros this p1 p2 s Hfar. apply collidePoints__apart.
    unfold gap. exact_arith. apply Rleb_true. lra.
Qed.

Lemma collidePoints_no_overlap_witness :
  World.collidePoints_ 0%nat 1%nat 2%nat (store_apart (A:=Exact))
    = Some (tt, store_apart, [CcollidePoints_ 1%nat 2%nat]).
Proof.
  apply (proj2 collidePoints_no_overlap 0%nat 1%nat 2%nat store_apart).
  cbn [store_apart store_of_two points current radius].
  rewrite length_horizontal. exact_arith. rewrite Rabs_left; lra.
Defined.

(** C8 as stated fails on the doubles of the program: for a point of radius
    3 at (0, 0) and a point of radius 0.60555127546398924 at (2, 3), the
    distance between the centres is at least the sum of the radii, and the
    first point is moved. *)
Lemma collidePoints_moves_grazing_points :
  (radius (points (store_grazing (A:=Binary64)) 1%nat)
   + radius (points (store_grazing (A:=Binary64)) 2%nat)
   <=? vec2.length
         (vec2.subtract (current (points (store_grazing (A:=Binary64)) 1%nat))
                        (current (points (store_grazing (A:=Binary64)) 2%nat))))%num
    = true /\
  exists s',
    World.collidePoints_ 0%nat 1%nat 2%nat (store_grazing (A:=Binary64))
      = Some (tt, s', [CcollidePoints_ 1%nat 2%nat]) /\
    current (points s' 1%nat)
      <> current (points (store_grazing (A:=Binary64)) 1%nat).
Proof.
  split; [vm_compute; reflexivity|].
  eexists. split.
  - apply collidePoints__overlap; [discriminate|].
    vm_compute. reflexivity.
  - intros H.
    apply (f_equal (fun v : vec2.t Binary64 =>
                      FloatOps.Prim2SF (vec2.c0 v))) in H.
    vm_compute in H. discriminate.
Qed.




(** ** Interaction of a point with the others and with the edges *)

Lemma filter_none {X} (f : X -> bool) (l : list X) :
  (forall a, In a l -> f a = false) -> List.filter f l = [].
Proof.
  induction l as [|a l IH]; intros Hall; [reflexivity|].
  cbn [List.filter]. rewrite (Hall a) by (left; reflexivity).
  apply IH. intros b Hb. apply Hall. right. exact Hb.
Qed.

Lemma le_excludes_gt_Exact : le_excludes_gt Exact.
Proof.
  intros a b. exact_arith. rewrite Rleb_true, Rltb_false. tauto.
Qed.

Lemma SFcompare_le_not_gt (x y : SpecFloat.spec_float) :
  SpecFloat.SFleb x y = true -> SpecFloat.SFltb y x = false.
Proof.
  unfold SpecFloat.SFleb, SpecFloat.SFltb.
  destruct x as [sx|sx| |sx mx ex], y as [sy|sy| |sy my ey];
    cbn [SpecFloat.SFcompare];
    try destruct sx; try destruct sy; try (intros; congruence).
  - rewrite (Z.compare_antisym ex ey).
    destruct (ex ?= ey)%Z; cbn [CompOpp]; try (intros; congruence).
    fold (Pos.compare mx my). fold (Pos.compare my mx).
    rewrite (Pos.compare_antisym mx my).
    destruct (mx ?= my)%positive; cbn [CompOpp]; intros; congruence.
  - rewrite (Z.compare_antisym ex ey).
    destruct (ex ?= ey)%Z; cbn [CompOpp]; try (intros; congruence).
    fold (Pos.compare mx my). fold (Pos.compare my mx).
    rewrite (Pos.compare_antisym mx my).
    destruct (mx ?= my)%positive; cbn [CompOpp]; intros; congruence.
Qed.

Lemma le_excludes_gt_Binary64 : le_excludes_gt Binary64.
Proof.
  intros a b. cbv [num_le num_lt Binary64].
  rewrite FloatAxioms.leb_spec, FloatAxioms.ltb_spec.
  apply SFcompare_le_not_gt.
Qed.

Lemma SFcompare_antisym (x y : SpecFloat.spec_float) :
  SpecFloat.SFcompare y x
    = match SpecFloat.SFcompare x y with
      | Some c => Some (CompOpp c)
      | None => None
      end.
Proof.
  destruct x as [sx|sx| |sx mx ex], y as [sy|sy| |sy my ey];
    cbn [SpecFloat.SFcompare];
    try destruct sx; try destruct sy; try reflexivity.
  - rewrite (Z.compare_antisym ex ey).
    destruct (ex ?= ey)%Z; cbn [CompOpp]; try reflexivity.
    fold (Pos.compare mx my). fold (Pos.compare my mx).
    rewrite (Pos.compare_antisym mx my).
    destruct (mx ?= my)%positive; reflexivity.
  - rewrite (Z.compare_antisym ex ey).
    destruct (ex ?= ey)%Z; cbn [CompOpp]; try reflexivity.
    fold (Pos.compare mx my). fold (Pos.compare my mx).
    rewrite (Pos.compare_antisym mx my).
    destruct (mx ?= my)%positive; reflexivity.
Qed.

Lemma SFcompare_numbers (x y : SpecFloat.spec_float) (c : comparison) :
  SpecFloat.SFcompare x y = Some c ->
  SpecFloat.SFcompare x x = Some Eq /\ SpecFloat.SFcompare y y = Some Eq.
Proof.
  assert (forall z, z <> SpecFloat.S754_nan ->
                    SpecFloat.SFcompare z z = Some Eq) as Hrefl.
  { intros [s|s| |s m e] Hz; cbn [SpecFloat.SFcompare];
      try destruct s; try reflexivity; try congruence.
    - rewrite Z.compare_refl. fold (Pos.compare m m).
      rewrite Pos.compare_refl. reflexivity.
    - rewrite Z.compare_refl. fold (Pos.compare m m).
      rewrite Pos.compare_refl. reflexivity. }
  intros H. split; apply Hrefl; intros Hn; subst.
  - cbn in H. congruence.
  - destruct x; cbn in H; congruence.
Qed.

Lemma le_relates_numbers_Binary64 : le_relates_numbers Binary64.
Proof.
  intros a b. cbv [num_le Binary64].
  rewrite !FloatAxioms.leb_spec. unfold SpecFloat.SFleb.
  destruct (SpecFloat.SFcompare (FloatOps.Prim2SF a) (FloatOps.Prim2SF b))
    as [c|] eqn:Hc; [|discriminate].
  destruct (SFcompare_numbers _ _ _ Hc) as [-> ->]. intros _. split; reflexivity.
Qed.

Lemma le_unless_gt_Binary64 : le_unless_gt Binary64.
Proof.
  intros a b. cbv [num_le num_lt Binary64].
  rewrite !FloatAxioms.leb_spec, FloatAxioms.ltb_spec.
  unfold SpecFloat.SFleb, SpecFloat.SFltb.
  rewrite (SFcompare_antisym (FloatOps.Prim2SF a) (FloatOps.Prim2SF b)).
  intros Ha Hb.
  destruct (SpecFloat.SFcompare (FloatOps.Prim2SF a) (FloatOps.Prim2SF b))
    as [[| |]|] eqn:Hab; cbn [CompOpp]; try (intros; congruence).
  exfalso.
  destruct (FloatOps.Prim2SF a) as [sa|sa| |sa ma ea],
           (FloatOps.Prim2SF b) as [sb|sb| |sb mb eb];
    cbn in Ha, Hb, Hab; congruence.
Qed.

Lemma le_relates_numbers_Exact : le_relates_numbers Exact.
Proof.
  intros a b. exact_arith. rewrite !Rleb_true. lra.
Qed.

Lemma le_unless_gt_Exact : le_unless_gt Exact.
Proof.
  intros a b. exact_arith. rewrite !Rleb_true, Rltb_false. lra.
Qed.

Section Interaction.

Context {A : Arith}.

(** C5, as the code has it. [interact p] returns, and the calls it makes are
    exactly [collidePoints_ (p, q)] for the points [q] of the World, in
    insertion order, that are not [p] and are interactive.  The flag of [p]
    itself is not tested: it is the caller that is expected to be an
    interactive point, and when it is, both participants are interactive. *)
Theorem interact_collides_with_interactive_others
    (this p : loc) (s : Store A) :
  exists s' calls,
    World.interact this p s = Some (tt, s', calls) /\
    calls = map (CcollidePoints_ p)
                (List.filter
                   (fun q => negb (Nat.eqb p q) && interactive (points s q))
                   (points_ (worlds s this))) /\
    (forall a b,
       In (CcollidePoints_ a b) calls <->
       a = p /\ In b (points_ (worlds s this)) /\
       b <> p /\ interactive (points s b) = true) /\
    (interactive (points s p) = true ->
     forall a b,
       In (CcollidePoints_ a b) calls ->
       interactive (points s a) = true /\ interactive (points s b) = true).
Proof.
  destruct (interact_runs this p s) as (s1 & Hrun & _).
  exists (edges this p s1), (map (CcollidePoints_ p) (partners s this p)).
  split; [exact Hrun|]. split; [reflexivity|].
  assert (forall a b,
            In (CcollidePoints_ a b)
               (map (CcollidePoints_ p) (partners s this p)) <->
            a = p /\ In b (points_ (worlds s this)) /\
            b <> p /\ interactive (points s b) = true) as Hcalls.
  { intros a b. rewrite in_map_iff. unfold partners. split.
    - intros (q & Heq & Hin). injection Heq as -> ->.
      apply filter_In in Hin as [Hin Hc]. unfold collides_with in Hc.
      apply andb_prop in Hc as [Hne Hi].
      apply negb_true_iff, Nat.eqb_neq in Hne.
      repeat split; [assumption|congruence|assumption].
    - intros (-> & Hin & Hne & Hi). exists b. split; [reflexivity|].
      apply filter_In. split; [assumption|]. unfold collides_with.
      apply andb_true_intro. split; [|assumption].
      apply negb_true_iff, Nat.eqb_neq. congruence. }
  split; [exact Hcalls|].
  intros Hp a b Hin. apply Hcalls in Hin as (-> & _ & _ & Hb).
  split; assumption.
Qed.

Lemma set_point_same (p : loc) (P : Point A) (s : Store A) :
  P = points s p -> set_point p P s = s.
Proof.
  intros ->. destruct s as [w ws ps ls f]. unfold set_point. cbn.
  f_equal. apply functional_extensionality. intros q.
  unfold insert, fn_insert. destruct (decide (p = q)); congruence.
Qed.

Lemma edges_in_bounds (this p : loc) (s : Store A) :
  le_excludes_gt A ->
  (radius (points s p) <=? vec2.c0 (current (points s p)))%num = true ->
  (vec2.c0 (current (points s p))
   <=? width (worlds s this) - radius (points s p))%num = true ->
  (radius (points s p) <=? vec2.c1 (current (points s p)))%num = true ->
  (vec2.c1 (current (points s p))
   <=? height (worlds s this) - radius (points s p))%num = true ->
  edges this p s = s.
Proof.
  intros Hlaw Hx0 Hx1 Hy0 Hy1. unfold edges, clamped.
  rewrite (Hlaw _ _ Hx0), (Hlaw _ _ Hx1), (Hlaw _ _ Hy0), (Hlaw _ _ Hy1).
  rewrite (set_point_same p _ s).
  - apply set_point_same.
    destruct (points s p) as [[x y] r i]. reflexivity.
  - destruct (points s p) as [[x y] r i]. reflexivity.
Qed.

Lemma interact_noop (this p : loc) (s : Store A) (n : nat) :
  edges this p s = s ->
  (forall q, In q (points_ (worlds s this)) -> q <> p ->
             interactive (points s q) = false) ->
  World.interact this p s = Some (tt, s, []) /\
  repeatedly n (World.interact this p) s = Some (tt, s, []).
Proof.
  intros Hedges Hothers.
  assert (World.interact this p s = Some (tt, s, [])) as Honce.
  { destruct (interact_runs this p s) as (s1 & Hrun & _ & Hnone).
    assert (partners s this p = []) as Hpartners.
    { apply filter_none. intros q Hq. unfold collides_with.
      destruct (Nat.eqb_spec p q) as [->|Hne]; [reflexivity|].
      rewrite (Hothers q Hq) by congruence. reflexivity. }
    rewrite Hrun, Hpartners, (Hnone Hpartners), Hedges. reflexivity. }
  split; [exact Honce|].
  induction n as [|n IH]; [reflexivity|].
  cbn [repeatedly]. unfold bind. rewrite Honce, IH. reflexivity.
Qed.

End Interaction.

(** C5 as stated fails: [interact] on a point that is not interactive calls
    [collidePoints_] with that point as a participant. *)
Lemma interact_collides_non_interactive :
  exists s' calls,
    World.interact 0%nat 1%nat (store_bystander (A:=Binary64))
      = Some (tt, s', calls) /\
    In (CcollidePoints_ 1%nat 2%nat) calls /\
    interactive (points (store_bystander (A:=Binary64)) 1%nat) = false.
Proof.
  destruct (interact_runs 0%nat 1%nat (store_bystander (A:=Binary64)))
    as (s1 & Hrun & _).
  eexists _, _. split; [exact Hrun|].
  split; [|reflexivity]. cbn. left. reflexivity.
Qed.

(** C7. In an arithmetic in which [a <= b] excludes [b < a], so for the
    doubles of the program, for a point inside the bounds on both axes, in a
    World none of whose other points is interactive, [interact] returns with
    the store as it was and without calling [collidePoints_]; so does any
    number of calls in succession.  The same, said of the real numbers. *)
Theorem interact_in_bounds_noop :
  (forall (A : Arith) (this p : loc) (s : Store A) (n : nat),
     le_excludes_gt A ->
     (radius (points s p) <=? vec2.c0 (current (points s p)))%num = true ->
     (vec2.c0 (current (points s p))
      <=? width (worlds s this) - radius (points s p))%num = true ->
     (radius (points s p) <=? vec2.c1 (current (points s p)))%num = true ->
     (vec2.c1 (current (points s p))
      <=? height (worlds s this) - radius (points s p))%num = true ->
     (forall q, In q (points_ (worlds s this)) -> q <> p ->
                interactive (points s q) = false) ->
     World.interact this p s = Some (tt, s, []) /\
     repeatedly n (World.interact this p) s = Some (tt, s, [])) /\
  (forall (this p : loc) (s : Store Exact) (n : nat),
     (radius (points s p) <= vec2.c0 (current (points s p))
      <= width (worlds s this) - radius (points s p))%R ->
     (radius (points s p) <= vec2.c1 (current (points s p))
      <= height (worlds s this) - radius (points s p))%R ->
     (forall q, In q (points_ (worlds s this)) -> q <> p ->
                interactive (points s q) = false) ->
     World.interact this p s = Some (tt, s, []) /\
     repeatedly n (World.interact this p) s = Some (tt, s, [])).
Proof.
  split.
  - intros A this p s n Hlaw Hx0 Hx1 Hy0 Hy1 Hothers.
    apply interact_noop; [|exact Hothers].
    apply edges_in_bounds; assumption.
  - intros this p s n Hx Hy Hothers.
    apply interact_noop; [|exact Hothers].
    apply edges_in_bounds; [exact le_excludes_gt_Exact|..];
      exact_arith; apply Rleb_true; lra.
Qed.

Lemma interact_in_bounds_noop_witness :
  World.interact 0%nat 1%nat (store_inside (A:=Binary64))
    = Some (tt, store_inside, []) /\
  repeatedly 2 (World.interact 0%nat 1%nat) (store_inside (A:=Binary64))
    = Some (tt, store_inside, []).
Proof.
  apply (proj1 interact_in_bounds_noop Binary64 0%nat 1%nat store_inside 2).
  - exact le_excludes_gt_Binary64.
  - vm_compute. reflexivity.
  - vm_compute. reflexivity.
  - vm_compute. reflexivity.
  - vm_compute. reflexivity.
  - cbn. intros q [<-|[<-|[]]] Hq; [congruence|reflexivity].
Defined.

(** On the doubles of the program, a point beyond two edges is moved back
    to [radius] on one axis and to [extent - radius] on the other. *)
Example interact_snaps_to_edges :
  exists s',
    World.interact 0%nat 1%nat (store_outside (A:=Binary64))
      = Some (tt, s', []) /\
    current (points s' 1%nat) = vec2.createFrom (lit 1) (lit 9).
Proof.
  destruct (interact_runs 0%nat 1%nat (store_outside (A:=Binary64)))
    as (s1 & Hrun & _ & Hnone).
  rewrite (Hnone eq_refl) in Hrun.
  eexists. split; [exact Hrun|].
  vm_compute. reflexivity.
Qed.

(** ** Further properties of interaction *)

Lemma clamped_within (x r extent : @number Exact) :
  (2 * r <= extent)%R ->
  (r <= clamped x r extent <= extent - r)%R.
Proof.
  intros Hfits. unfold clamped. exact_arith. unfold Rltb.
  destruct (Rlt_dec x r); [lra|]. destruct (Rlt_dec (extent - r) x); lra.
Qed.

Section Frames.

Context {A : Arith}.

Lemma edges_only_moves (this p : loc) (s : Store A) :
  only_moved s (edges this p s) /\
  (forall q, q <> p -> points (edges this p s) q = points s q) /\
  current (points (edges this p s) p)
    = vec2.createFrom
        (clamped (vec2.c0 (current (points s p))) (radius (points s p))
                 (width (worlds s this)))
        (clamped (vec2.c1 (current (points s p))) (radius (points s p))
                 (height (worlds s this))).
Proof.
  unfold edges. cbn [points set_point]. rewrite !fn_lookup_insert.
  split; [|split].
  - repeat split; cbn [points set_point window worlds literals fresh];
      unfold insert, fn_insert;
      repeat (destruct (decide _); subst;
              cbn [radius interactive set_current_0 set_current_1]);
      reflexivity.
  - intros q Hq. rewrite !fn_lookup_insert_ne by congruence. reflexivity.
  - reflexivity.
Qed.

Lemma collidePoints__moves_two (this p1 p2 : loc) (s : Store A) :
  exists s',
    World.collidePoints_ this p1 p2 s = Some (tt, s', [CcollidePoints_ p1 p2]) /\
    only_moved s s' /\
    forall q, q <> p1 -> q <> p2 -> points s' q = points s q.
Proof.
  destruct (collidePoints__only_moves this p1 p2 s) as (s' & Hrun & Hmoved).
  exists s'. split; [exact Hrun|]. split; [exact Hmoved|].
  intros q Hq1 Hq2. revert Hrun. unfold World.collidePoints_; run.
  destruct (_ >=? lit 0)%num; intros Hrun; injection Hrun as <-.
  - reflexivity.
  - cbn [points set_point]. rewrite !fn_lookup_insert_ne by congruence.
    reflexivity.
Qed.

Lemma collide_loop_others (this point : loc) (s : Store A) (n from : nat) :
  (from + n)%nat = List.length (points_ (worlds s this)) ->
  exists s' calls,
    for_ n from (collide_at this point) s = Some (tt, s', calls) /\
    only_moved s s' /\
    forall q,
      q <> point ->
      ~ In q (List.filter (collides_with s point)
                          (drop from (points_ (worlds s this)))) ->
      points s' q = points s q.
Proof.
  revert from s. induction n as [|n IH]; intros from s Hlen.
  - exists s, []. split; [reflexivity|].
    split; [apply only_moved_refl|reflexivity].
  - destruct (lookup_lt_is_Some_2 (points_ (worlds s this)) from)
      as [q0 Hq0]; [rewrite <- Hlen; lia|].
    rewrite (drop_S _ _ _ Hq0). cbn [for_ List.filter].
    unfold bind at 1. unfold collide_at at 1; run.
    unfold element. rewrite Hq0. unfold ret at 1.
    fold (collides_with s point q0).
    destruct (collides_with s point q0) eqn:Hc.
    + destruct (collidePoints__moves_two this point q0 s)
        as (s1 & Hrun & Hmoved & Hothers).
      rewrite Hrun.
      pose proof Hmoved as (_ & Hworlds & _).
      destruct (IH (S from) s1) as (s2 & calls & Hloop & Hmoved' & Hothers').
      { rewrite Hworlds. lia. }
      rewrite Hloop. eexists s2, _. split; [reflexivity|]. split.
      * eapply only_moved_trans; [exact Hmoved|exact Hmoved'].
      * intros q Hq Hnot.
        rewrite Hothers'; [apply Hothers| |].
        -- exact Hq.
        -- intros ->. apply Hnot. left. reflexivity.
        -- exact Hq.
        -- rewrite Hworlds, (collides_with_only_moved s s1 point _ Hmoved).
           intros Hin. apply Hnot. right. exact Hin.
    + destruct (IH (S from) s) as (s2 & calls & Hloop & Hmoved' & Hothers');
        [lia|].
      rewrite Hloop. eexists s2, _. split; [reflexivity|].
      split; [exact Hmoved'|exact Hothers'].
Qed.

(** X7. [interact p] only moves points: it returns with the window, every
    World, every object literal and the radius and flag of every point as
    they were.  A point other than [p] that is not interactive, or that is
    not in the World's collection, is where it was. *)
Theorem interact_moves_only_partners (this p : loc) (s : Store A) :
  exists s' calls,
    World.interact this p s = Some (tt, s', calls) /\
    window s' = window s /\
    worlds s' = worlds s /\
    literals s' = literals s /\
    (forall q, radius (points s' q) = radius (points s q) /\
               interactive (points s' q) = interactive (points s q)) /\
    (forall q,
       q <> p ->
       interactive (points s q) = false \/
       ~ In q (points_ (worlds s this)) ->
       points s' q = points s q).
Proof.
  destruct (collide_loop_others this p s
              (List.length (points_ (worlds s this))) 0)
    as (s1 & calls & Hloop & Hmoved & Hothers); [reflexivity|].
  rewrite drop_0 in Hothers.
  destruct (edges_only_moves this p s1) as (Hedges & Hrest & _).
  exists (edges this p s1), (calls ++ []). split.
  { unfold World.interact. fold (collide_at this p).
    unfold bind at 1, gets at 1. unfold bind at 1. rewrite Hloop.
    run. unfold edges, clamped. cbn [points set_point worlds]. reflexivity. }
  pose proof (only_moved_trans _ _ _ Hmoved Hedges)
    as (Hwindow & Hworlds & Hliterals & _ & Hq).
  repeat (split; [assumption|]).
  intros q Hne Hq'. rewrite Hrest by exact Hne. apply Hothers; [exact Hne|].
  intros Hin. apply filter_In in Hin as [Hin Hc].
  unfold collides_with in Hc. apply andb_prop in Hc as [_ Hi].
  destruct Hq' as [Hflag|Hnotin]; [congruence|contradiction].
Qed.

End Frames.

Lemma clamped_inside {A : Arith} (x r extent : number) :
  le_relates_numbers A ->
  le_unless_gt A ->
  (r <=? extent - r)%num = true ->
  (clamped x r extent <=? clamped x r extent)%num = true ->
  (r <=? clamped x r extent)%num = true /\
  (clamped x r extent <=? extent - r)%num = true.
Proof.
  intros Hnumbers Hunless Hfits.
  destruct (Hnumbers _ _ Hfits) as [Hr He].
  unfold clamped.
  destruct (x <? r)%num eqn:Hlow; [intros _; split; assumption|].
  destruct (x >? extent - r)%num eqn:Hhigh; [intros _; split; assumption|].
  intros Hx. split; apply Hunless; assumption.
Qed.

(** X6. When the point fits in the World (twice its radius is at most the
    width and at most the height), [interact] returns with the point inside
    the bounds on both axes, wherever it was and whatever it collided
    with.  That is said of the real numbers.  On the doubles of the program,
    and in every arithmetic that orders its numbers as they do, when the
    radius is at most the width minus the radius and at most the height
    minus the radius, [interact] returns with the point inside the bounds
    on each axis on which its position is a number. *)
Theorem interact_keeps_inside :
  (forall (this p : loc) (s : Store Exact),
     (2 * radius (points s p) <= width (worlds s this))%R ->
     (2 * radius (points s p) <= height (worlds s this))%R ->
     exists s' calls,
       World.interact this p s = Some (tt, s', calls) /\
       (radius (points s' p) <= vec2.c0 (current (points s' p))
         <= width (worlds s' this) - radius (points s' p))%R /\
       (radius (points s' p) <= vec2.c1 (current (points s' p))
         <= height (worlds s' this) - radius (points s' p))%R) /\
  (forall (A : Arith) (this p : loc) (s : Store A),
     le_relates_numbers A ->
     le_unless_gt A ->
     (radius (points s p)
      <=? width (worlds s this) - radius (points s p))%num = true ->
     (radius (points s p)
      <=? height (worlds s this) - radius (points s p))%num = true ->
     exists s' calls,
       World.interact this p s = Some (tt, s', calls) /\
       ((vec2.c0 (current (points s' p))
         <=? vec2.c0 (current (points s' p)))%num = true ->
        (radius (points s' p) <=? vec2.c0 (current (points s' p)))%num
          = true /\
        (vec2.c0 (current (points s' p))
         <=? width (worlds s' this) - radius (points s' p))%num = true) /\
       ((vec2.c1 (current (points s' p))
         <=? vec2.c1 (current (points s' p)))%num = true ->
        (radius (points s' p) <=? vec2.c1 (current (points s' p)))%num
          = true /\
        (vec2.c1 (current (points s' p))
         <=? height (worlds s' this) - radius (points s' p))%num = true)).
Proof.
  split.
  - intros this p s Hw Hh.
    destruct (interact_runs this p s) as (s1 & Hrun & Hmoved & _).
    eexists _, _. split; [exact Hrun|].
    destruct (edges_only_moves this p s1) as (Hedges & _ & Hcurrent).
    pose proof (only_moved_trans _ _ _ Hmoved Hedges)
      as (_ & Hworlds & _ & _ & Hq).
    destruct (Hq p) as [Hr _]. rewrite Hworlds, Hr, Hcurrent.
    destruct Hmoved as (_ & Hworlds1 & _ & _ & Hq1).
    destruct (Hq1 p) as [Hr1 _]. rewrite Hworlds1, Hr1.
    cbn [vec2.c0 vec2.c1].
    split; apply clamped_within; assumption.
  - intros A this p s Hnumbers Hunless Hw Hh.
    destruct (interact_runs this p s) as (s1 & Hrun & Hmoved & _).
    eexists _, _. split; [exact Hrun|].
    destruct (edges_only_moves this p s1) as (Hedges & _ & Hcurrent).
    pose proof (only_moved_trans _ _ _ Hmoved Hedges)
      as (_ & Hworlds & _ & _ & Hq).
    destruct (Hq p) as [Hr _]. rewrite Hworlds, Hr, Hcurrent.
    destruct Hmoved as (_ & Hworlds1 & _ & _ & Hq1).
    destruct (Hq1 p) as [Hr1 _]. rewrite Hworlds1, Hr1.
    cbn [vec2.c0 vec2.c1].
    split; apply clamped_inside; assumption.
Qed.

Lemma interact_keeps_inside_witness :
  exists s' calls,
    World.interact 0%nat 1%nat (store_outside (A:=Exact))
      = Some (tt, s', calls) /\
    (radius (points s' 1%nat) <= vec2.c0 (current (points s' 1%nat))
      <= width (worlds s' 0%nat) - radius (points s' 1%nat))%R /\
    (radius (points s' 1%nat) <= vec2.c1 (current (points s' 1%nat))
      <= height (worlds s' 0%nat) - radius (points s' 1%nat))%R.
Proof.
  apply (proj1 interact_keeps_inside 0%nat 1%nat store_outside);
    cbn; exact_arith; lra.
Defined.

(** ** One step of the system *)

Section Stepping.

Context {A : Arith}.

Lemma call_each_loop (array : Store A -> list loc) (call : loc -> Call A)
    (method : loc -> Store A -> Store A) :
  (forall object s, array (method object s) = array s) ->
  forall n from s,
    (from + n)%nat = List.length (array s) ->
    for_ n from (call_each array call method) s
      = Some (tt,
              fold_left (fun s object => method object s)
                        (drop from (array s)) s,
              map call (drop from (array s))).
Proof.
  intros Hkeeps. induction n as [|n IH]; intros from s Hlen.
  - rewrite drop_ge by (rewrite <- Hlen; lia). reflexivity.
  - destruct (lookup_lt_is_Some_2 (array s) from) as [x Hx];
      [rewrite <- Hlen; lia|].
    rewrite (drop_S _ _ _ Hx). cbn [for_ fold_left map].
    unfold bind at 1. unfold call_each at 1; run.
    unfold element. rewrite Hx. unfold ret at 1.
    rewrite IH by (rewrite Hkeeps; lia).
    rewrite Hkeeps. reflexivity.
Qed.

Lemma fold_keeps (array : Store A -> list loc)
    (method : loc -> Store A -> Store A) (l : list loc) (s : Store A) :
  (forall object s, array (method object s) = array s) ->
  array (fold_left (fun s object => method object s) l s) = array s.
Proof.
  intros Hkeeps. revert s. induction l as [|x l IH]; intros s; [reflexivity|].
  cbn [fold_left]. rewrite IH. apply Hkeeps.
Qed.

(** C2. Provided [satisfy] and [move] leave the World's two collections as
    they are, [step] returns, and the calls it makes are [satisfy(DT)] on
    each constraint in insertion order, once each, followed by [move(DT)] on
    each point in insertion order, once each; [DT] is 16. The store it
    leaves is the one these calls, in that order, produce. *)
Theorem step_satisfies_then_moves
    (satisfy move : loc -> number -> Store A -> Store A)
    (this : loc) (s : Store A) :
  (forall c dt, keeps_collections this (satisfy c dt)) ->
  (forall p dt, keeps_collections this (move p dt)) ->
  World.DT = lit 16 /\
  World.step satisfy move this s
    = Some (tt,
            fold_left (fun s p => move p World.DT s)
              (points_ (worlds s this))
              (fold_left (fun s c => satisfy c World.DT s)
                 (constraints_ (worlds s this)) s),
            map (fun c => Csatisfy c World.DT) (constraints_ (worlds s this))
            ++ map (fun p => Cmove p World.DT) (points_ (worlds s this))).
Proof.
  intros Hsatisfy Hmove. split; [reflexivity|].
  unfold World.step.
  change (for_ ?n 0 _) with
    (for_ n 0 (call_each (fun s => constraints_ (worlds s this))
                         (fun c => Csatisfy c World.DT)
                         (fun c => satisfy c World.DT))) at 1.
  unfold bind at 1, gets at 1. unfold bind at 1.
  rewrite (call_each_loop (fun s => constraints_ (worlds s this)))
    by (reflexivity || (intros; apply Hsatisfy)).
  rewrite drop_0.
  set (s1 := fold_left _ (constraints_ (worlds s this)) s).
  assert (points_ (worlds s1 this) = points_ (worlds s this)) as Hpoints.
  { apply (fold_keeps (fun s => points_ (worlds s this))
                      (fun c => satisfy c World.DT)).
    intros; apply Hsatisfy. }
  unfold bind at 1, gets at 1.
  change (for_ ?n 0 _) with
    (for_ n 0 (call_each (fun s => points_ (worlds s this))
                         (fun p => Cmove p World.DT)
                         (fun p => move p World.DT))).
  rewrite (call_each_loop (fun s => points_ (worlds s this)))
    by (reflexivity || (intros; apply Hmove)).
  rewrite drop_0, Hpoints. reflexivity.
Qed.

Lemma falling_move_keeps (this p : loc) (dt : number) :
  keeps_collections this (falling_move p dt).
Proof.
  intros s. unfold falling_move.
  match goal with
  | |- context [World.interact 0%nat p ?s0] =>
      destruct (interact_runs 0%nat p s0) as (s1 & -> & Hmoved & _)
  end.
  destruct Hmoved as (_ & Hworlds & _).
  unfold edges. cbn [worlds set_point] in *. rewrite Hworlds.
  split; reflexivity.
Qed.

Lemma call_each_loop_cached (array : Store A -> list loc)
    (call : loc -> Call A) (method : loc -> Store A -> Store A)
    (objects : list loc) :
  (forall object, only_appends array (method object)) ->
  forall n from s,
    objects `prefix_of` array s ->
    (from + n)%nat = List.length objects ->
    for_ n from (call_each array call method) s
      = Some (tt,
              fold_left (fun s object => method object s)
                        (drop from objects) s,
              map call (drop from objects)).
Proof.
  intros Happends. induction n as [|n IH]; intros from s Hprefix Hlen.
  - rewrite drop_ge by (rewrite <- Hlen; lia). reflexivity.
  - destruct (lookup_lt_is_Some_2 objects from) as [x Hx];
      [rewrite <- Hlen; lia|].
    rewrite (drop_S _ _ _ Hx). cbn [for_ fold_left map].
    unfold bind at 1. unfold call_each at 1; run.
    unfold element. rewrite (prefix_lookup_Some _ _ _ _ Hx Hprefix).
    unfold ret at 1.
    rewrite IH; [reflexivity| |lia].
    etransitivity; [exact Hprefix|apply Happends].
Qed.

Lemma step_runs
    (satisfy move : loc -> number -> Store A -> Store A)
    (this : loc) (s : Store A) :
  (forall c dt,
     only_appends (fun s => constraints_ (worlds s this)) (satisfy c dt)) ->
  (forall p dt,
     only_appends (fun s => points_ (worlds s this)) (move p dt)) ->
  World.step satisfy move this s
    = Some (tt,
            fold_left (fun s p => move p World.DT s)
              (points_
                 (worlds
                    (fold_left (fun s c => satisfy c World.DT s)
                               (constraints_ (worlds s this)) s)
                    this))
              (fold_left (fun s c => satisfy c World.DT s)
                         (constraints_ (worlds s this)) s),
            map (fun c => Csatisfy c World.DT) (constraints_ (worlds s this))
            ++ map (fun p => Cmove p World.DT)
                   (points_
                      (worlds
                         (fold_left (fun s c => satisfy c World.DT s)
                                    (constraints_ (worlds s this)) s)
                         this))).
Proof.
  intros Hsatisfy Hmove. unfold World.step.
  change (for_ ?n 0 _) with
    (for_ n 0 (call_each (fun s => constraints_ (worlds s this))
                         (fun c => Csatisfy c World.DT)
                         (fun c => satisfy c World.DT))) at 1.
  unfold bind at 1, gets at 1. unfold bind at 1.
  rewrite (call_each_loop_cached (fun s => constraints_ (worlds s this))
             _ _ (constraints_ (worlds s this)));
    [|intros; apply Hsatisfy|reflexivity|reflexivity].
  rewrite drop_0.
  set (s1 := fold_left _ (constraints_ (worlds s this)) s).
  unfold bind at 1, gets at 1.
  change (for_ ?n 0 _) with
    (for_ n 0 (call_each (fun s => points_ (worlds s this))
                         (fun p => Cmove p World.DT)
                         (fun p => move p World.DT))).
  rewrite (call_each_loop_cached (fun s => points_ (worlds s this))
             _ _ (points_ (worlds s1 this)));
    [|intros; apply Hmove|reflexivity|reflexivity].
  rewrite drop_0. reflexivity.
Qed.

(** X8. The bound of each loop of [step] is read once, when the loop
    begins.  Provided [satisfy] only pushes onto [constraints_] and [move]
    only pushes onto [points_], [step] calls [satisfy] on exactly the
    constraints present when it is called, then [move] on exactly the points
    present once the constraints have been satisfied: an object pushed
    during a loop is not visited by that loop. *)
Theorem step_visits_those_present
    (satisfy move : loc -> number -> Store A -> Store A)
    (this : loc) (s : Store A) :
  (forall c dt,
     only_appends (fun s => constraints_ (worlds s this)) (satisfy c dt)) ->
  (forall p dt,
     only_appends (fun s => points_ (worlds s this)) (move p dt)) ->
  World.step satisfy move this s
    = Some (tt,
            fold_left (fun s p => move p World.DT s)
              (points_
                 (worlds
                    (fold_left (fun s c => satisfy c World.DT s)
                               (constraints_ (worlds s this)) s)
                    this))
              (fold_left (fun s c => satisfy c World.DT s)
                         (constraints_ (worlds s this)) s),
            map (fun c => Csatisfy c World.DT) (constraints_ (worlds s this))
            ++ map (fun p => Cmove p World.DT)
                   (points_
                      (worlds
                         (fold_left (fun s c => satisfy c World.DT s)
                                    (constraints_ (worlds s this)) s)
                         this))).
Proof.
  intros Hsatisfy Hmove.
  apply (step_runs satisfy move this s Hsatisfy Hmove).
Qed.

(** X9. [step] does not look at the length of [constraints_] again: when the
    World holds at least two constraints and [satisfy] on the first leaves
    at most one in the collection, the second turn of the loop reads
    [undefined] and [step] raises. *)
Theorem step_raises_when_constraints_removed
    (satisfy move : loc -> number -> Store A -> Store A)
    (this : loc) (s : Store A) (c : loc) :
  constraints_ (worlds s this) !! 0%nat = Some c ->
  (2 <= List.length (constraints_ (worlds s this)))%nat ->
  (List.length (constraints_ (worlds (satisfy c World.DT s) this)) <= 1)%nat ->
  World.step satisfy move this s = None.
Proof.
  intros Hfirst Hmany Hfew. unfold World.step.
  unfold bind at 1, gets at 1.
  destruct (List.length (constraints_ (worlds s this))) as [|[|n]] eqn:Hlen;
    [lia|lia|].
  cbn [for_]. unfold bind at 1. unfold bind at 1. unfold bind at 1.
  unfold gets at 1. unfold bind at 1. unfold element at 1.
  rewrite Hfirst. unfold ret at 1. unfold bind at 1, called at 1.
  unfold external at 1.
  unfold bind at 1. unfold bind at 1. unfold gets at 1.
  unfold bind at 1. unfold element at 1.
  rewrite lookup_ge_None_2 by exact Hfew.
  reflexivity.
Qed.

End Stepping.

Lemma step_satisfies_then_moves_witness :
  exists s',
    World.step pin_satisfy falling_move 0%nat (store_one_each (A:=Binary64))
      = Some (tt, s', [Csatisfy 7%nat (lit 16); Cmove 1%nat (lit 16)]).
Proof.
  destruct (step_satisfies_then_moves pin_satisfy falling_move 0%nat
              (store_one_each (A:=Binary64))) as [_ Hrun].
  - intros c dt s. split; reflexivity.
  - intros p dt. apply falling_move_keeps.
  - eexists. exact Hrun.
Defined.

Lemma step_visits_those_present_witness :
  exists s',
    World.step spawning_satisfy falling_move 0%nat
               (store_one_each (A:=Binary64))
      = Some (tt, s',
              [Csatisfy 7%nat (lit 16); Cmove 1%nat (lit 16);
               Cmove 9%nat (lit 16)]) /\
    constraints_ (worlds s' 0%nat) = [7%nat; 8%nat].
Proof.
  pose proof (step_visits_those_present spawning_satisfy falling_move 0%nat
                (store_one_each (A:=Binary64))) as Hrun.
  eexists. split.
  - rewrite Hrun; [reflexivity| |].
    + intros c dt s. exists [8%nat]. reflexivity.
    + intros p dt s. destruct (falling_move_keeps 0%nat p dt s) as [_ ->].
      reflexivity.
  - cbn [fold_left store_one_each worlds constraints_ points_
         spawning_satisfy set_world set_constraints_ set_points_ app].
    rewrite !fn_lookup_insert.
    cbn [points_ set_constraints_ set_points_ app fold_left].
    destruct (falling_move_keeps 0%nat 9%nat World.DT
                (falling_move 1%nat World.DT
                   (spawning_satisfy 7%nat World.DT
                      (store_one_each (A:=Binary64)))))
      as [-> _].
    destruct (falling_move_keeps 0%nat 1%nat World.DT
                (spawning_satisfy 7%nat World.DT
                   (store_one_each (A:=Binary64))))
      as [-> _].
    cbn [spawning_satisfy worlds set_world]. rewrite fn_lookup_insert.
    reflexivity.
Defined.

Lemma step_raises_when_constraints_removed_witness :
  World.step vanishing_satisfy falling_move 0%nat
             (store_two_constraints (A:=Binary64)) = None.
Proof.
  apply (step_raises_when_constraints_removed vanishing_satisfy falling_move
           0%nat store_two_constraints 7%nat).
  - reflexivity.
  - unfold store_two_constraints. cbn [worlds set_world].
    rewrite fn_lookup_insert. cbn. lia.
  - unfold vanishing_satisfy. cbn [worlds set_world].
    rewrite fn_lookup_insert. cbn. lia.
Defined.

(** ** Registration of points and constraints *)

Section Registration.

Context {A : Arith}.

Lemma add_runs (constructor : loc -> Store A -> loc * Store A)
    (this options : loc) (s : Store A) :
  reads_only this options constructor ->
  let built := constructor options (tagged this options s) in
  literals (snd built) options
    = <["world" := VObject this]> (literals s options) /\
  worlds (snd built) this = worlds s this.
Proof.
  intros Hreads built. destruct (Hreads (tagged this options s)) as [Hl Hw].
  subst built. rewrite Hl, Hw. unfold tagged. cbn [literals worlds set_literal].
  rewrite fn_lookup_insert. split; reflexivity.
Qed.

(** C10. Provided the constructors leave the options object and the World
    as they are, [addPoint] and [addConstraint] return the object built from
    the options, and afterwards the options object the caller passed holds
    the receiving World in its field [world], its other fields being as they
    were, while the World differs from what it was only by the object
    appended to [points_], respectively [constraints_]. *)
Theorem add_tags_caller_options
    (new_Point new_Constraint : loc -> Store A -> loc * Store A)
    (this options : loc) (s : Store A) :
  reads_only this options new_Point ->
  reads_only this options new_Constraint ->
  (exists point s',
     World.addPoint new_Point this options s = Some (point, s', []) /\
     point = fst (new_Point options (tagged this options s)) /\
     literals s' options !! "world" = Some (VObject this) /\
     (forall field, field <> "world" ->
        literals s' options !! field = literals s options !! field) /\
     worlds s' this
       = set_points_ (points_ (worlds s this) ++ [point]) (worlds s this)) /\
  (exists constraint s',
     World.addConstraint new_Constraint this options s
       = Some (constraint, s', []) /\
     constraint = fst (new_Constraint options (tagged this options s)) /\
     literals s' options !! "world" = Some (VObject this) /\
     (forall field, field <> "world" ->
        literals s' options !! field = literals s options !! field) /\
     worlds s' this
       = set_constraints_ (constraints_ (worlds s this) ++ [constraint])
                          (worlds s this)).
Proof.
  intros HPoint HConstraint. split.
  - destruct (add_runs new_Point this options s HPoint) as [Hl Hw].
    unfold World.addPoint; run. fold (tagged this options s).
    destruct (new_Point options (tagged this options s)) as [point s1].
    cbn [fst snd] in *.
    eexists point, _. split; [reflexivity|]. split; [reflexivity|].
    cbn [literals worlds set_world]. rewrite Hl, Hw, fn_lookup_insert.
    split; [apply lookup_insert_eq|].
    split; [|reflexivity].
    intros field Hfield. apply lookup_insert_ne. congruence.
  - destruct (add_runs new_Constraint this options s HConstraint) as [Hl Hw].
    unfold World.addConstraint; run. fold (tagged this options s).
    destruct (new_Constraint options (tagged this options s))
      as [constraint s1].
    cbn [fst snd] in *.
    eexists constraint, _. split; [reflexivity|]. split; [reflexivity|].
    cbn [literals worlds set_world]. rewrite Hl, Hw, fn_lookup_insert.
    split; [apply lookup_insert_eq|].
    split; [|reflexivity].
    intros field Hfield. apply lookup_insert_ne. congruence.
Qed.

Lemma keeps_only_appends (this : loc) (f : Store A -> Store A) :
  keeps_collections this f ->
  only_appends (fun s => constraints_ (worlds s this)) f /\
  only_appends (fun s => points_ (worlds s this)) f.
Proof.
  intros Hkeeps. split; intros s; destruct (Hkeeps s) as [Hc Hp].
  - cbn beta. rewrite Hc. reflexivity.
  - cbn beta. rewrite Hp. reflexivity.
Qed.

(** X12. A point added with [addPoint] is moved by the next [step], after
    every point that was already in the World: provided the constructor
    leaves the options and the World as they are and [satisfy] and [move]
    leave the collections as they are, the calls of that step are [satisfy]
    on the constraints, [move] on the points the World had, then [move] on
    the new point. *)
Theorem added_point_moves_last
    (new_Point : loc -> Store A -> loc * Store A)
    (satisfy move : loc -> number -> Store A -> Store A)
    (this options : loc) (s : Store A) :
  reads_only this options new_Point ->
  (forall c dt, keeps_collections this (satisfy c dt)) ->
  (forall p dt, keeps_collections this (move p dt)) ->
  exists point s' s'',
    World.addPoint new_Point this options s = Some (point, s', []) /\
    World.step satisfy move this s'
      = Some (tt, s'',
              map (fun c => Csatisfy c World.DT) (constraints_ (worlds s this))
              ++ map (fun p => Cmove p World.DT) (points_ (worlds s this))
              ++ [Cmove point World.DT]).
Proof.
  intros Hreads Hsatisfy Hmove.
  destruct (add_runs new_Point this options s Hreads) as [_ Hw].
  unfold World.addPoint; run. fold (tagged this options s).
  destruct (new_Point options (tagged this options s)) as [point s1].
  cbn [fst snd] in Hw.
  eexists point, _, _. split; [reflexivity|].
  rewrite step_runs.
  - cbn [worlds set_world]. rewrite fn_lookup_insert.
    cbn [constraints_ points_ set_points_].
    match goal with
    | |- context [fold_left ?f (constraints_ ?w) ?s0] =>
        pose proof (fold_keeps (fun s => points_ (worlds s this))
                      (fun c => satisfy c World.DT) (constraints_ w) s0)
          as Hfold
    end.
    cbn beta in Hfold. rewrite Hfold by (intros; apply Hsatisfy).
    cbn [worlds set_world]. rewrite fn_lookup_insert.
    cbn [points_ set_points_]. rewrite Hw, map_app. reflexivity.
  - intros c dt. apply keeps_only_appends, Hsatisfy.
  - intros p dt. apply keeps_only_appends, Hmove.
Qed.

End Registration.

Lemma add_tags_caller_options_witness :
  (exists point s',
     World.addPoint build_Point 0%nat 5%nat (store_with_options (A:=Binary64))
       = Some (point, s', []) /\
     literals s' 5%nat !! "world" = Some (VObject 0%nat) /\
     literals s' 5%nat !! "radius" = Some (VNumber (lit 2)) /\
     points_ (worlds s' 0%nat) = [1%nat; 2%nat; point]) /\
  (exists constraint s',
     World.addConstraint build_Constraint 0%nat 5%nat
                         (store_with_options (A:=Binary64))
       = Some (constraint, s', []) /\
     literals s' 5%nat !! "world" = Some (VObject 0%nat) /\
     constraints_ (worlds s' 0%nat) = [constraint]).
Proof.
  destruct (add_tags_caller_options build_Point build_Constraint
              0%nat 5%nat (store_with_options (A:=Binary64)))
    as [(point & s' & Hrun & _ & Hworld & Hfields & Hw)
        (constraint & s'' & Hrun' & _ & Hworld' & _ & Hw')].
  - intros s. split; reflexivity.
  - intros s. split; reflexivity.
  - split.
    + exists point, s'. split; [exact Hrun|]. split; [exact Hworld|].
      split; [rewrite Hfields by discriminate; reflexivity|].
      rewrite Hw. reflexivity.
    + exists constraint, s''. split; [exact Hrun'|]. split; [exact Hworld'|].
      rewrite Hw'. reflexivity.
Defined.

Lemma added_point_moves_last_witness :
  exists point s' s'',
    World.addPoint build_Point 0%nat 5%nat (store_with_options (A:=Binary64))
      = Some (point, s', []) /\
    World.step pin_satisfy falling_move 0%nat s'
      = Some (tt, s'',
              [Cmove 1%nat World.DT; Cmove 2%nat World.DT;
               Cmove point World.DT]).
Proof.
  apply (added_point_moves_last build_Point pin_satisfy falling_move
           0%nat 5%nat (store_with_options (A:=Binary64))).
  - intros s. split; reflexivity.
  - intros c dt s. split; reflexivity.
  - intros p dt. apply falling_move_keeps.
Defined.

(** ** Drawing *)

Section Drawing.

Context {A : Arith}.

Lemma each_drawn_globals (array : Store A -> list loc)
    (method : loc -> Host A -> Host A) (objects : list loc) (h : Host A) :
  (forall x h, global_i (method x h) = global_i h /\
               global_l (method x h) = global_l h /\
               array (store (method x h)) = array (store h)) ->
  global_i (each_drawn method objects h)
    = (global_i h + List.length objects)%nat /\
  global_l (each_drawn method objects h) = global_l h /\
  array (store (each_drawn method objects h)) = array (store h).
Proof.
  intros Halone. revert h. unfold each_drawn.
  induction objects as [|x objects IH]; intros h.
  - cbn. repeat split. lia.
  - cbn [fold_left List.length].
    destruct (IH (mkHost (store (method x h)) (S (global_i (method x h)))
                         (global_l (method x h)))) as (Hi & Hl & Harray).
    destruct (Halone x h) as (Hi' & Hl' & Harray').
    cbn [global_i global_l store] in *.
    rewrite Hi, Hl, Harray. repeat split; [lia|assumption|assumption].
Qed.

Lemma draw_loop_runs (array : Store A -> list loc) (mark : loc -> Drawn)
    (method : loc -> Host A -> Host A) (objects : list loc) :
  (forall x h, global_i (method x h) = global_i h /\
               global_l (method x h) = global_l h /\
               array (store (method x h)) = array (store h)) ->
  forall n fuel h,
    array (store h) = objects ->
    global_l h = List.length objects ->
    (global_i h + n)%nat = List.length objects ->
    (n < fuel)%nat ->
    draw_loop fuel array mark method h
      = Returned (each_drawn method (drop (global_i h) objects) h)
                 (map mark (drop (global_i h) objects)).
Proof.
  intros Halone. induction n as [|n IH]; intros fuel h Harray Hl Hi Hfuel.
  - destruct fuel as [|fuel]; [lia|]. cbn [draw_loop].
    destruct (Nat.ltb_spec (global_i h) (global_l h)) as [Hlt|_]; [lia|].
    rewrite drop_ge by lia. reflexivity.
  - destruct fuel as [|fuel]; [lia|]. cbn [draw_loop].
    destruct (Nat.ltb_spec (global_i h) (global_l h)) as [_|Hge]; [|lia].
    destruct (lookup_lt_is_Some_2 objects (global_i h)) as [x Hx]; [lia|].
    rewrite Harray, Hx. rewrite (drop_S _ _ _ Hx).
    destruct (Halone x h) as (Hi' & Hl' & Harray').
    rewrite (IH fuel); cbn [store global_i global_l];
      [|congruence|congruence|lia|lia].
    unfold each_drawn. cbn [fold_left map]. rewrite Hi'. reflexivity.
Qed.

Lemma draw_runs (draw_Constraint draw_Point : loc -> loc -> Host A -> Host A)
    (fuel : nat) (this context : loc) (h : Host A) :
  (forall c, leaves_loop_alone this (draw_Constraint c context)) ->
  (forall p, leaves_loop_alone this (draw_Point p context)) ->
  (List.length (constraints_ (worlds (store h) this)) < fuel)%nat ->
  (List.length (points_ (worlds (store h) this)) < fuel)%nat ->
  let cs := constraints_ (worlds (store h) this) in
  let ps := points_ (worlds (store h) this) in
  let h' :=
    each_drawn (fun p => draw_Point p context) ps
      (loop_entered ps
         (each_drawn (fun c => draw_Constraint c context) cs
            (loop_entered cs h))) in
  World.draw draw_Constraint draw_Point fuel this context h
    = Returned h' (map (fun c => Dconstraint c context) cs
                   ++ map (fun p => Dpoint p context) ps) /\
  global_i h' = List.length ps /\
  global_l h' = List.length ps.
Proof.
  intros HConstraint HPoint Hcs Hps cs ps h'.
  assert (forall c h, global_i (draw_Constraint c context h) = global_i h /\
            global_l (draw_Constraint c context h) = global_l h /\
            points_ (worlds (store (draw_Constraint c context h)) this)
              = points_ (worlds (store h) this)) as HkeepsP.
  { intros c h0. destruct (HConstraint c h0) as (? & ? & ? & ?). tauto. }
  assert (forall c h, global_i (draw_Constraint c context h) = global_i h /\
            global_l (draw_Constraint c context h) = global_l h /\
            constraints_ (worlds (store (draw_Constraint c context h)) this)
              = constraints_ (worlds (store h) this)) as HkeepsC.
  { intros c h0. destruct (HConstraint c h0) as (? & ? & ? & ?). tauto. }
  assert (forall p h, global_i (draw_Point p context h) = global_i h /\
            global_l (draw_Point p context h) = global_l h /\
            points_ (worlds (store (draw_Point p context h)) this)
              = points_ (worlds (store h) this)) as HkeepsP'.
  { intros p h0. destruct (HPoint p h0) as (? & ? & ? & ?). tauto. }
  subst h'. unfold loop_entered. subst cs ps.
  set (cs := constraints_ (worlds (store h) this)) in *.
  set (ps := points_ (worlds (store h) this)) in *.
  set (h0 := mkHost (store h) 0 (List.length cs)).
  set (h1 := each_drawn (fun c => draw_Constraint c context) cs h0).
  destruct (each_drawn_globals (fun s => points_ (worlds s this))
              (fun c => draw_Constraint c context) cs h0 HkeepsP)
    as (_ & _ & Hps').
  fold h1 in Hps'. change (points_ (worlds (store h0) this)) with ps in Hps'.
  cbn beta in Hps'.
  set (h2 := mkHost (store h1) 0 (List.length ps)).
  split.
  - unfold World.draw. fold cs. fold h0.
    rewrite (draw_loop_runs (fun s => constraints_ (worlds s this))
               (fun c => Dconstraint c context)
               (fun c => draw_Constraint c context) cs
               HkeepsC (List.length cs) fuel h0);
      [|reflexivity|reflexivity|reflexivity|exact Hcs].
    cbn [global_i h0]. rewrite drop_0. fold h1.
    rewrite Hps'. fold h2.
    rewrite (draw_loop_runs (fun s => points_ (worlds s this))
               (fun p => Dpoint p context)
               (fun p => draw_Point p context) ps
               HkeepsP' (List.length ps) fuel h2);
      [|exact Hps'|reflexivity|reflexivity|exact Hps].
    cbn [global_i h2]. rewrite drop_0. reflexivity.
  - destruct (each_drawn_globals (fun s => points_ (worlds s this))
                (fun p => draw_Point p context) ps h2 HkeepsP')
      as (Hi & Hl & _).
    rewrite Hi, Hl. split; reflexivity.
Qed.

Lemma marking_draw_leaves_loop_alone (this object context : loc) :
  leaves_loop_alone this (marking_draw object context).
Proof. intros h. repeat split. Qed.

(** X10. Provided the [draw] methods leave the globals [i] and [l] and the
    World's two collections alone, [draw] returns as soon as it is allowed
    more turns than either collection has objects, having asked every
    constraint, in insertion order, and then every point, in insertion
    order, to draw itself into the context, once each. *)
Theorem draw_constraints_then_points
    (draw_Constraint draw_Point : loc -> loc -> Host A -> Host A)
    (fuel : nat) (this context : loc) (h : Host A) :
  (forall c, leaves_loop_alone this (draw_Constraint c context)) ->
  (forall p, leaves_loop_alone this (draw_Point p context)) ->
  (List.length (constraints_ (worlds (store h) this)) < fuel)%nat ->
  (List.length (points_ (worlds (store h) this)) < fuel)%nat ->
  World.draw draw_Constraint draw_Point fuel this context h
    = Returned
        (each_drawn (fun p => draw_Point p context)
           (points_ (worlds (store h) this))
           (loop_entered (points_ (worlds (store h) this))
              (each_drawn (fun c => draw_Constraint c context)
                 (constraints_ (worlds (store h) this))
                 (loop_entered (constraints_ (worlds (store h) this)) h))))
        (map (fun c => Dconstraint c context)
             (constraints_ (worlds (store h) this))
         ++ map (fun p => Dpoint p context)
                (points_ (worlds (store h) this))).
Proof.
  intros HConstraint HPoint Hcs Hps.
  apply (draw_runs draw_Constraint draw_Point fuel this context h
           HConstraint HPoint Hcs Hps).
Qed.

(** X11. [draw] assigns to the undeclared [i] and [l]: under the same
    provisos, the globals [i] and [l] both hold the number of points of the
    World when it returns, whatever they held before. *)
Theorem draw_overwrites_globals
    (draw_Constraint draw_Point : loc -> loc -> Host A -> Host A)
    (fuel : nat) (this context : loc) (h : Host A) :
  (forall c, leaves_loop_alone this (draw_Constraint c context)) ->
  (forall p, leaves_loop_alone this (draw_Point p context)) ->
  (List.length (constraints_ (worlds (store h) this)) < fuel)%nat ->
  (List.length (points_ (worlds (store h) this)) < fuel)%nat ->
  exists h' drawn,
    World.draw draw_Constraint draw_Point fuel this context h
      = Returned h' drawn /\
    global_i h' = List.length (points_ (worlds (store h) this)) /\
    global_l h' = List.length (points_ (worlds (store h) this)).
Proof.
  intros HConstraint HPoint Hcs Hps.
  destruct (draw_runs draw_Constraint draw_Point fuel this context h
              HConstraint HPoint Hcs Hps) as (Hrun & Hi & Hl).
  eexists _, _. split; [exact Hrun|]. split; assumption.
Qed.

End Drawing.

Lemma draw_constraints_then_points_witness :
  exists h',
    World.draw marking_draw marking_draw 2 0%nat 5%nat
               (host_one_each (A:=Binary64))
      = Returned h' [Dconstraint 7%nat 5%nat; Dpoint 1%nat 5%nat].
Proof.
  eexists.
  apply (draw_constraints_then_points marking_draw marking_draw 2
           0%nat 5%nat (host_one_each (A:=Binary64))).
  - intros c. apply marking_draw_leaves_loop_alone.
  - intros p. apply marking_draw_leaves_loop_alone.
  - cbn. lia.
  - cbn. lia.
Defined.

Lemma draw_overwrites_globals_witness :
  global_i (host_one_each (A:=Binary64)) = 40%nat /\
  global_l (host_one_each (A:=Binary64)) = 2%nat /\
  exists h' drawn,
    World.draw marking_draw marking_draw 2 0%nat 5%nat
               (host_one_each (A:=Binary64))
      = Returned h' drawn /\
    global_i h' = 1%nat /\
    global_l h' = 1%nat.
Proof.
  split; [reflexivity|]. split; [reflexivity|].
  apply (draw_overwrites_globals marking_draw marking_draw 2
           0%nat 5%nat (host_one_each (A:=Binary64))).
  - intros c. apply marking_draw_leaves_loop_alone.
  - intros p. apply marking_draw_leaves_loop_alone.
  - cbn. lia.
  - cbn. lia.
Defined.
